(** * knmi_stations: coordinate parsing, station matching and inverse
    distance weighting

    A shallow embedding of [knmi_stations.py].  The scraping and plotting
    collaborators (BeautifulSoup, geopandas, matplotlib) are left out; what
    they hand to the core is taken as input: the cell texts of the catalog
    table, the catalog frame and a measurement name, the observation frame
    and a query point, the bounding box of the map.

    Conventions.
    - A Python [str] is a [string]; its characters are code points below 256.
    - A Python exception is a constructor of [exn]; a computation that may
      raise lives in the monad [py].
    - The floats produced from two-digit groups and from similarity ratios
      are small rationals: they are modelled in [Q].  The floats of the
      interpolation (square roots, real powers) are idealised as real
      numbers [R]; a null (NaN) entry of a numeric column is [None].
      Doubles round, and the power [x**p] overflows ([OverflowError]) and
      underflows (to 0.0, whose inverse raises [ZeroDivisionError]): what
      [idw] returns is therefore stated for query points on a station,
      where the weights are 0 and 1 and no power is taken, and for the
      propagation of NaN. *)

From Stdlib Require Import ZArith QArith Reals RList Psatz Lia Ascii String List Bool.
From stdpp Require Import gmap strings list fin_maps.
Import ListNotations.

(** ** Python results *)

Inductive exn : Type :=
| KeyError | IndexError | TypeError | ZeroDivisionError | AttributeError.

Inductive py (A : Type) : Type :=
| Raise (e : exn)
| Return (a : A).
Arguments Raise {A} e.
Arguments Return {A} a.

#[global] Instance py_ret : MRet py := @Return.
#[global] Instance py_bind : MBind py := λ A B f m,
  match m with
  | Raise e => Raise e
  | Return a => f a
  end.

(** ** Regular expressions, as far as [degmin_to_decdeg] needs them *)

Module Re.

(** Character classes of Python's [re] on [str] patterns, for code points
    below 256: [\s] is [str.isspace], [\d] the decimal digits, [.] anything
    but a newline. *)
Definition is_space (c : ascii) : bool :=
  let n := nat_of_ascii c in
  ((9 <=? n) && (n <=? 13)) || ((28 <=? n) && (n <=? 32))
  || (n =? 133) || (n =? 160).

Definition is_digit (c : ascii) : bool :=
  let n := nat_of_ascii c in (48 <=? n) && (n <=? 57).

Definition is_dot (c : ascii) : bool := negb (nat_of_ascii c =? 10).

(** One element of a pattern: a single character of a class (inside a
    capturing group or not), a greedy [*] and a greedy [?] of a class. *)
Inductive item : Type :=
| One (capture : bool) (cls : ascii → bool)
| Star (cls : ascii → bool)
| Opt (cls : ascii → bool).

(** Backtracking match of a pattern at the head of [s]: the captured
    characters and the number of characters consumed.  The greedy operators
    first try to take a character and fall back to taking none when the rest
    of the pattern then fails. *)
Fixpoint match_here (pat : list item) : list ascii → option (list ascii * nat) :=
  match pat with
  | [] => λ _, Some ([], 0%nat)
  | One cap cls :: p => λ s,
      match s with
      | c :: s' =>
          if cls c then
            match match_here p s' with
            | Some (caps, n) => Some (if cap then c :: caps else caps, S n)
            | None => None
            end
          else None
      | [] => None
      end
  | Opt cls :: p => λ s,
      match s with
      | c :: s' =>
          if cls c then
            match match_here p s' with
            | Some (caps, n) => Some (caps, S n)
            | None => match_here p s
            end
          else match_here p s
      | [] => match_here p []
      end
  | Star cls :: p =>
      fix star (s : list ascii) : option (list ascii * nat) :=
        match s with
        | c :: s' =>
            if cls c then
              match star s' with
              | Some (caps, n) => Some (caps, S n)
              | None => match_here p s
              end
            else match_here p s
        | [] => match_here p []
        end
  end.

(** [re.findall]: scan from left to right; after a match of [n] characters
    the scan resumes behind it ([skip] counts the characters still to pass
    over), after a failure one character further. *)
Fixpoint findall_from (pat : list item) (skip : nat) (s : list ascii)
  : list (list ascii) :=
  match s with
  | [] => []
  | c :: s' =>
      match skip with
      | S k => findall_from pat k s'
      | O =>
          match match_here pat s with
          | Some (caps, n) => caps :: findall_from pat (Nat.pred n) s'
          | None => findall_from pat 0 s'
          end
      end
  end.

Definition findall (pat : list item) (s : string) : list (list ascii) :=
  findall_from pat 0 (list_ascii_of_string s).

End Re.

(** ** [degmin_to_decdeg] *)

(** The pattern [\s*(\d{2})\s*(\d{2})\s*.?\s*]. *)
Definition degmin_pattern : list Re.item :=
  [ Re.Star Re.is_space;
    Re.One true Re.is_digit; Re.One true Re.is_digit;
    Re.Star Re.is_space;
    Re.One true Re.is_digit; Re.One true Re.is_digit;
    Re.Star Re.is_space; Re.Opt Re.is_dot; Re.Star Re.is_space ].

(** [float] of a group of two decimal digits. *)
Definition digit_val (c : ascii) : Z := Z.of_nat (nat_of_ascii c - 48).

Definition float2 (d1 d2 : ascii) : Q := inject_Z (10 * digit_val d1 + digit_val d2).

(** Decimal degrees of one match: the captured characters are the two
    digits of the degrees followed by the two digits of the minutes. *)
Definition decdeg_of (caps : list ascii) : Q :=
  match caps with
  | [d1; d2; m1; m2] => (float2 d1 d2 + float2 m1 m2 / 60)%Q
  | _ => 0%Q
  end.

Definition degmin_to_decdeg (s : string) : list Q :=
  let parsed := Re.findall degmin_pattern s in
  map decdeg_of parsed.

(** ** Data frames *)

(** A frame is a sequence of rows under integer labels (the pandas index).
    [loc] is [frame.loc[label]]; it raises [KeyError] when no row carries
    the label. *)
Abbreviation frame A := (list (Z * A)).

Definition index {A} (f : frame A) : list Z := map fst f.

Fixpoint loc {A} (f : frame A) (label : Z) : py A :=
  match f with
  | [] => Raise KeyError
  | (l, r) :: f' => if decide (l = label) then Return r else loc f' label
  end.

(** [frame.loc[len(frame)] = row] for each row in turn, on an empty frame:
    the labels are 0, 1, 2, ... *)
Definition enlarge {A} (rows : list A) : frame A :=
  imap (λ i r, (Z.of_nat i, r)) rows.

(** [frame.drop(0)]: removes the row labelled 0, [KeyError] without one. *)
Definition drop0 {A} (f : frame A) : py (frame A) :=
  if existsb (λ lr, bool_decide (lr.1 = 0%Z)) f
  then Return (filter (λ lr, lr.1 ≠ 0%Z) f)
  else Raise KeyError.

(** ** [coordtable] *)

(** [str.strip]. *)
Fixpoint lstrip (s : list ascii) : list ascii :=
  match s with
  | c :: s' => if Re.is_space c then lstrip s' else s
  | [] => []
  end.

Definition strip (s : string) : string :=
  string_of_list_ascii (rev (lstrip (rev (lstrip (list_ascii_of_string s))))).

(** The text of a cell, [None] for an empty one. *)
Definition cell_text (text : string) : option string :=
  let s := strip text in
  if decide (s = EmptyString) then None else Some s.

(** A row of the catalog page: its six cell texts. *)
Record raw_station : Type := {
  raw_sid : option string;
  raw_name : option string;
  raw_type : option string;
  raw_lat : option string;
  raw_lon : option string;
  raw_elevation : option string }.

(** [if len(cells) == 6]: data rows are told from headers and footers by
    their number of cells. *)
Definition six_cells (cells : list string) : option raw_station :=
  match cells with
  | [c0; c1; c2; c3; c4; c5] =>
      Some {| raw_sid := cell_text c0; raw_name := cell_text c1;
              raw_type := cell_text c2; raw_lat := cell_text c3;
              raw_lon := cell_text c4; raw_elevation := cell_text c5 |}
  | _ => None
  end.

(** A row of the frame [coordtable] returns. *)
Record station : Type := {
  sid : option string;
  name : option string;
  type_ : option string;
  lat : Q;
  lon : Q;
  elevation : option string }.

(** [degmin_to_decdeg(cell)[0]]: [re.findall] raises [TypeError] on a
    null cell, indexing an empty list raises [IndexError]. *)
Definition first_decdeg (cell : option string) : py Q :=
  match cell with
  | None => Raise TypeError
  | Some s =>
      match degmin_to_decdeg s with
      | [] => Raise IndexError
      | d :: _ => Return d
      end
  end.

(** The body of the conversion loop for one row: [lat], then [lon]. *)
Definition convert (r : raw_station) : py station :=
  la ← first_decdeg (raw_lat r);
  lo ← first_decdeg (raw_lon r);
  Return {| sid := raw_sid r; name := raw_name r; type_ := raw_type r;
            lat := la; lon := lo; elevation := raw_elevation r |}.

Fixpoint convert_rows (f : frame raw_station) : py (frame station) :=
  match f with
  | [] => Return []
  | (i, r) :: f' =>
      s ← convert r;
      f'' ← convert_rows f';
      Return ((i, s) :: f'')
  end.

(** [coordtable], given the cell texts of the rows of the catalog table.
    The first six-cell row holds the column names and is dropped; the rows
    labelled 1 to [len(frame)] are then converted in order. *)
Definition coordtable (rows : list (list string)) : py (frame station) :=
  let frame := enlarge (omap six_cells rows) in
  frame ← drop0 frame;
  convert_rows frame.

(** ** [difflib.SequenceMatcher] *)

Module Difflib.

(** A matching block [(i, j, k)]: [a[i:i+k] == b[j:j+k]]. *)
Definition block : Type := nat * nat * nat.

Definition size (x : block) : nat := x.2.

(** A region [(alo, ahi, blo, bhi)] still to be matched. *)
Definition region : Type := nat * nat * nat * nat.

Section SequenceMatcher.
Context (a b : list ascii).

(** [__chain_b]: for each element of [b] the ascending list of its
positions.  No junk predicate is given; with [autojunk], in a [b] of
200 elements or more, the elements that take up more than 1% + 1 of
the positions are dropped as popular. *)
Definition positions : gmap ascii (list nat) :=
fold_left (λ b2j ie, <[ie.2 := default [] (b2j !! ie.2) ++ [ie.1]]> b2j)
        (imap pair b) ∅.

Definition b2j : gmap ascii (list nat) :=
let n := length b in
if (200 <=? n)%nat then
let ntest := (n / 100 + 1)%nat in
filter (λ ei, (length ei.2 ≤ ntest)%nat) positions
else positions.

(** [j2len.get(j-1, 0)] *)
Definition j2len_get (j2len : gmap nat nat) (j : nat) : nat :=
match j with
| O => 0%nat
| S j' => default 0%nat (j2len !! j')
end.

(** The inner loop of [find_longest_match] for one [i], over the
positions [js] of [a[i]] in [b]: positions before [blo] are passed
over, the first one from [bhi] on ends the loop.  With [k] the length
of the match ending at [a[i]] and [b[j]], the best block becomes
[(i-k+1, j-k+1, k)] when [k] is larger than its size. *)
Fixpoint scan_row (blo bhi i : nat) (j2len : gmap nat nat) (js : list nat)
(newj2len : gmap nat nat) (best : block) : gmap nat nat * block :=
match js with
| [] => (newj2len, best)
| j :: js' =>
  if (j <? blo)%nat then scan_row blo bhi i j2len js' newj2len best
  else if (bhi <=? j)%nat then (newj2len, best)
  else
    let k := S (j2len_get j2len j) in
    let newj2len := <[j := k]> newj2len in
    let best := if (size best <? k)%nat
                then ((S i - k)%nat, (S j - k)%nat, k) else best in
    scan_row blo bhi i j2len js' newj2len best
end.

Definition positions_of (i : nat) : list nat :=
match a !! i with
| Some elt => default [] (b2j !! elt)
| None => []
end.

Definition longest (alo ahi blo bhi : nat) : block :=
(fold_left (λ st i, scan_row blo bhi i st.1 (positions_of i) ∅ st.2)
         (seq alo (ahi - alo)) (∅, (alo, blo, 0%nat))).2.

Definition same_elt (i j : nat) : bool :=
match a !! i, b !! j with
| Some x, Some y => bool_decide (x = y)
| _, _ => false
end.

(** The two loops that extend the best block by elements that are not
junk (the popular ones are not in [b2j]); the set of junk elements
is empty, so the two loops after them, which extend by junk, never
run. *)
Fixpoint extend_left (alo blo besti bestj bestsize : nat) {struct besti} : block :=
match besti, bestj with
| S i', S j' =>
  if (alo <? besti)%nat && (blo <? bestj)%nat && same_elt i' j'
  then extend_left alo blo i' j' (S bestsize)
  else (besti, bestj, bestsize)
| _, _ => (besti, bestj, bestsize)
end.

Fixpoint extend_right (ahi bhi besti bestj : nat) (steps bestsize : nat) : nat :=
match steps with
| O => bestsize
| S steps' =>
  if (besti + bestsize <? ahi)%nat && (bestj + bestsize <? bhi)%nat
     && same_elt (besti + bestsize) (bestj + bestsize)
  then extend_right ahi bhi besti bestj steps' (S bestsize)
  else bestsize
end.

Definition find_longest_match (alo ahi blo bhi : nat) : block :=
let '(i, j, k) := longest alo ahi blo bhi in
let '(i, j, k) := extend_left alo blo i j k in
(i, j, extend_right ahi bhi i j (ahi - (i + k)) k).

(** The loop of [get_matching_blocks]: the queue is a stack, its top the
head of the list; the region left of a block is pushed before the
one right of it. *)
Definition push_if (c : bool) (r : region) (queue : list region) : list region :=
if c then r :: queue else queue.

Fixpoint matching_loop (fuel : nat) (queue : list region) (blocks : list block)
: list block :=
match fuel, queue with
| S fuel', (alo, ahi, blo, bhi) :: queue' =>
  let '(i, j, k) := find_longest_match alo ahi blo bhi in
  if (k =? 0)%nat then matching_loop fuel' queue' blocks
  else
    let queue1 := push_if ((alo <? i)%nat && (blo <? j)%nat)
                          (alo, i, blo, j) queue' in
    let queue2 := push_if ((i + k <? ahi)%nat && (j + k <? bhi)%nat)
                          ((i + k)%nat, ahi, (j + k)%nat, bhi) queue1 in
    matching_loop fuel' queue2 (blocks ++ [(i, j, k)])
| _, _ => blocks
end.

(** Every turn of the loop takes a region off the queue and, when it
pushes regions, these are shorter in [a] than the one taken by at
least the block between them: [2 * len(a) + 1] turns empty the
queue. *)
Definition get_matching_blocks : list block :=
matching_loop (2 * length a + 1) [(0%nat, length a, 0%nat, length b)] [].

(** [ratio]: sorting the blocks, merging adjacent ones and appending the
empty block [(len(a), len(b), 0)] leave the sum of the sizes as it
is. *)
Definition matches : nat := sum_list_with size get_matching_blocks.

Definition ratio : Q :=
let length := (length a + length b)%nat in
if (length =? 0)%nat then 1%Q
else (2 * Z.of_nat matches # Pos.of_nat length)%Q.

End SequenceMatcher.

End Difflib.

(** [difflib.SequenceMatcher(None, a, b).ratio()] on cells of a frame.  A
    null cell is not a sequence: [ratio] raises [TypeError] when it takes
    the length of the one null sequence.  With both cells null, [set_seq1]
    and [set_seq2] return at once (the new sequence is the stored one,
    [None]) and leave [matching_blocks] unset: [ratio] raises
    [AttributeError]. *)
Definition similarity (a b : option string) : py Q :=
  match a, b with
  | Some a, Some b =>
      Return (Difflib.ratio (list_ascii_of_string a) (list_ascii_of_string b))
  | None, None => Raise AttributeError
  | _, _ => Raise TypeError
  end.

(** ** [table]: matching measurement rows to stations *)

(** The dictionary of station name discrepancies; [items()] yields its
    entries in this order. *)
Definition modify_names : list (string * string) :=
  [ ("Den Helder", "De Kooy"); ("Eelde", "Groningen") ]%string.

(** The loop over [modify_names.items()]: each entry is compared with the
    current name, a null name equals no key. *)
Definition rename (name : option string) : option string :=
  fold_left (λ name on, if decide (name = Some on.1) then Some on.2 else name)
            modify_names name.

Definition Qlt_bool (x y : Q) : bool := negb (Qle_bool y x).

(** The loop over [coords.index], from [maxsim] and [maxind]. *)
Fixpoint best_match (coords : frame station) (nm : option string)
    (labels : list Z) (maxsim : Q) (maxind : Z) : py (Q * Z) :=
  match labels with
  | [] => Return (maxsim, maxind)
  | j :: labels' =>
      r ← loc coords j;
      sim ← similarity nm (name r);
      if Qlt_bool maxsim sim
      then best_match coords nm labels' sim j
      else best_match coords nm labels' maxsim maxind
  end.

(** The body of the loop over the measurement rows, for a row named
    [name]: the label of the matched station and the cells [sid], [lat],
    [lon] the row receives.  ([verbose] only prints.) *)
Definition match_station (coords : frame station) (nm : option string)
  : py (Z * station) :=
  let nm := rename nm in
  '(maxsim, maxind) ← best_match coords nm (index coords) 0%Q (-1)%Z;
  r ← loc coords maxind;
  Return (maxind, r).

Definition resolved (coords : frame station) (nm : option string)
  : py (option string * Q * Q) :=
  '(_, r) ← match_station coords nm;
  Return (sid r, lat r, lon r).

(** ** [idw]: inverse distance weighting *)

(** The numeric columns of the measurement frame. *)
Inductive column : Type := temp | rel_humid | sight | atm_pressure.

(** A row of the frame [table] returns, as far as [idw] reads it: the
    point (longitude, latitude) and the numeric cells, [None] for NaN. *)
Record observation : Type := {
  coords : R * R;
  cell : column → option R }.

(** A number in Python: an [int], or a numpy scalar (a float or NaN). *)
Inductive number : Type :=
| PyInt (n : Z)
| Np (v : option R).

Definition np (a : number) : option R :=
  match a with
  | PyInt n => Some (IZR n)
  | Np v => v
  end.

Definition np_mul (v w : option R) : option R :=
  match v, w with
  | Some x, Some y => Some (x * y)%R
  | _, _ => None
  end.

Definition add (a : number) (v : option R) : number :=
  Np (match np a, v with
      | Some x, Some y => Some (x + y)%R
      | _, _ => None
      end).

(** The builtin [sum] of a series: from the [int] 0. *)
Definition py_sum (s : list (option R)) : number := fold_left add s (PyInt 0).

(** [a == 0] *)
Definition is_zero (a : number) : bool :=
  match np a with
  | Some x => if Req_dec_T x 0 then true else false
  | None => false
  end.

(** [a / b]: between two [int]s a zero divisor raises; numpy scalars divide
    without raising, and a zero divisor gives no real number. *)
Definition truediv (a b : number) : py (option R) :=
  match a, b with
  | PyInt x, PyInt y =>
      if decide (y = 0%Z) then Raise ZeroDivisionError
      else Return (Some (IZR x / IZR y)%R)
  | _, _ =>
      Return (match np a, np b with
              | Some x, Some y =>
                  if Req_dec_T y 0 then None else Some (x / y)%R
              | _, _ => None
              end)
  end.

(** [distance(Point(x,y), data)]: the planar distance to each station. *)
Definition point_distance (p q : R * R) : R :=
  sqrt ((p.1 - q.1) * (p.1 - q.1) + (p.2 - q.2) * (p.2 - q.2)).

Definition distance (p : R * R) (data : list observation) : list R :=
  map (λ o, point_distance p (coords o)) data.

(** [dist == 0], a series of booleans; in arithmetic they count 1 and 0. *)
Definition eq0 (d : R) : option R :=
  Some (if Req_dec_T d 0 then 1%R else 0%R).

(** [lambda x: 1/x**p], over the real numbers.  (On doubles the power is
    rounded, raises [OverflowError] when it overflows and is 0.0 when it
    underflows, the quotient then raising [ZeroDivisionError].) *)
Definition inverse_power (p : R) (d : R) : option R :=
  Some (1 / Rpower d p)%R.

Definition idw (data : list observation) (x y p : R) (col : column)
  : py (option R) :=
  let dist := distance (x, y) data in
  let weights := map eq0 dist in
  let weights :=
    if is_zero (py_sum weights) then map (inverse_power p) dist else weights in
  truediv (py_sum (zip_with np_mul weights (map (λ o, cell o col) data)))
          (py_sum weights).

(** ** [contour]: the sampling grid *)

(** [np.linspace(start, stop, num)]: the samples [i * step + start] with
    [step = (stop - start) / (num - 1)], the last one set to [stop]; over
    the real numbers (on doubles each product and sum is rounded). *)
Definition linspace (start stop : R) (num : nat) : list R :=
  let div := (num - 1)%nat in
  let delta := (stop - start)%R in
  let step := if (0 <? div)%nat then (delta / INR div)%R else delta in
  let y := map (λ i, INR i * step + start)%R (seq 0 num) in
  if (1 <? num)%nat then <[(num - 1)%nat := stop]> y else y.

Definition resolution : nat := 100.

(** The two loops that fill [z]: [y] outer, [x] inner. *)
Definition fill (impute_f : R → R → py (option R)) (x y : list R)
  : py (list (list (option R))) :=
  mapM (λ yi, mapM (λ xj, impute_f xj yi) x) y.

(** The coordinate vectors and the matrix [contour] hands to [contourf],
    for the bounds of the map and [impute_f] left at [idw]. *)
Definition contour_x (minx maxx : R) : list R := linspace minx maxx resolution.
Definition contour_y (miny maxy : R) : list R := linspace miny maxy resolution.

Definition contour_z (data : list observation) (p : R) (col : column)
    (minx maxx miny maxy : R) : py (list (list (option R))) :=
  fill (λ xj yi, idw data xj yi p col)
       (contour_x minx maxx) (contour_y miny maxy).

(** ** [table] *)

(** A row of the measurement page: the station name and the numeric
    cells. *)
Record measurement : Type := {
  station_name : option string;
  readings : column → option R }.

(** The frame [table] returns, indexed by [sid]: each measurement row with
    the point (longitude, latitude) of the station matched to its name. *)
Definition table (catalog : frame station) (rows : list measurement)
  : py (list (option string * observation)) :=
  mapM (λ m,
          '(i, la, lo) ← resolved catalog (station_name m);
          Return (i, {| coords := (Q2R lo, Q2R la); cell := readings m |}))
       rows.

(** ** [map]: the stations that are plotted and interpolated *)

(** [data.dropna(subset=dropifna)]: the rows with a value in each of the
    columns. *)
Definition dropna (dropifna : list column) (data : list observation)
  : list observation :=
  filter (λ o, Forall (λ c, cell o c ≠ None) dropifna) data.

(** The frame [map] works with: the rows that are kept, their points
    projected. *)
Definition map_data (to_crs : R * R → R * R) (dropifna : list column)
    (data : list observation) : list observation :=
  map (λ o, {| coords := to_crs (coords o); cell := cell o |})
      (dropna dropifna data).

(** [map], as far as the frame it returns goes (the name [map] is that of
    the list function here).  The time stamp is read from the first row,
    [data.t.iloc[0]]: on a frame without rows that raises [IndexError]. *)
Definition map_ (to_crs : R * R → R * R) (timestamp : bool)
    (dropifna : list column) (data : list observation) : py (list observation) :=
  let data := map_data to_crs dropifna data in
  if timestamp then
    match data with
    | [] => Raise IndexError
    | _ :: _ => Return data
    end
  else Return data.

(** ** The contour levels *)

(** [math.floor] and [math.ceil] of a number. *)
Definition math_floor (v : R) : Z := Int_part v.
Definition math_ceil (v : R) : Z := (- Int_part (- v))%Z.

(** [range(start, stop)] *)
Definition range (start stop : Z) : list Z :=
  map (λ i, (start + Z.of_nat i)%Z) (seq 0 (Z.to_nat (stop - start))).

(** The contour levels [range(math.floor(z.min()), math.ceil(z.max())+1)]
    of a matrix of numbers; a matrix without a cell has no minimum
    ([None]). *)
Definition levels (z : list (list R)) : option (list Z) :=
  match concat z with
  | [] => None
  | cells => Some (range (math_floor (MinRlist cells))
                         (math_ceil (MaxRlist cells) + 1))
  end.

(** * Notions the properties are stated with *)

(** ** Written coordinates *)

Definition spaces (ws : list ascii) : Prop := Forall (λ c, Re.is_space c = true) ws.

(** The text does not go on with white space. *)
Definition stops (t : list ascii) : Prop :=
  match t with
  | [] => True
  | c :: _ => Re.is_space c = false
  end.

(** A degree-minute pair as it is written: two digits, two digits, white
    space before, between and behind them, and the character that follows,
    if any. *)
Record group : Type := {
  lead : list ascii;
  deg1 : ascii; deg2 : ascii;
  gap : list ascii;
  min1 : ascii; min2 : ascii;
  trail : list ascii;
  sep : option ascii }.

Definition body (g : group) : list ascii :=
  lead g ++ deg1 g :: deg2 g :: gap g ++ min1 g :: min2 g :: trail g.

Definition written (g : group) : list ascii :=
  body g ++ match sep g with Some c => [c] | None => [] end.

Definition well_written (g : group) : Prop :=
  spaces (lead g) ∧ spaces (gap g) ∧ spaces (trail g)
  ∧ Re.is_digit (deg1 g) = true ∧ Re.is_digit (deg2 g) = true
  ∧ Re.is_digit (min1 g) = true ∧ Re.is_digit (min2 g) = true
  ∧ ∀ c, sep g = Some c → Re.is_space c = false.

(** Only the last pair of a text may lack the character behind it. *)
Fixpoint separated (gs : list group) : Prop :=
  match gs with
  | [] => True
  | g :: gs' => (gs' = [] ∨ sep g ≠ None) ∧ separated gs'
  end.

Definition captured (g : group) : list ascii := [deg1 g; deg2 g; min1 g; min2 g].

Definition decimal (g : group) : Q :=
  (float2 (deg1 g) (deg2 g) + float2 (min1 g) (min2 g) / 60)%Q.

(** The end [\s*.?\s*] of the pattern. *)
Definition tail3 : list Re.item :=
  [Re.Star Re.is_space; Re.Opt Re.is_dot; Re.Star Re.is_space].

Definition group_52_10_N : group :=
  {| lead := []; deg1 := "5"; deg2 := "2"; gap := [" "%char];
     min1 := "1"; min2 := "0"; trail := []; sep := Some "N"%char |}.

Definition group_04_30 : group :=
  {| lead := [" "%char]; deg1 := "0"; deg2 := "4"; gap := [" "%char];
     min1 := "3"; min2 := "0"; trail := []; sep := None |}.

(** ** The catalog *)

Definition four_digits (caps : list ascii) : Prop :=
  ∃ d1 d2 m1 m2, caps = [d1; d2; m1; m2]
    ∧ Re.is_digit d1 = true ∧ Re.is_digit d2 = true
    ∧ Re.is_digit m1 = true ∧ Re.is_digit m2 = true.

(** The largest value two digits of degrees and two digits of minutes can
    give: 99 + 99/60 = 100.65. *)
Definition decdeg_max : Q := (6039 # 60)%Q.

Definition decdeg_range (d : Q) : Prop := (0 <= d <= decdeg_max)%Q.

(** A coordinate cell that does not parse: no text, or a text without a
    match. *)
Definition unparsed (c : option string) : Prop :=
  ∀ s, c = Some s → degmin_to_decdeg s = [].

Definition parse_error (e : exn) : Prop := e = IndexError ∨ e = TypeError.

Definition in_range (s : station) : Prop :=
  decdeg_range (lat s) ∧ decdeg_range (lon s).

(** The labels of the frame after the column names row is dropped. *)
Definition relabel {A} (data : list A) : frame A :=
  imap (λ i r, (Z.of_nat (S i), r)) data.

Definition header : list string :=
  ["STN"; "NAAM"; "TYPE"; "LAT"; "LON"; "HOOGTE"]%string.

Definition example_catalog : list (list string) :=
  [ header;
    ["210"; "Valkenburg"; "AWS"; "52 10"; "04 25"; "-0.2"];
    ["235"; "De Kooy"; "AWS"; "52 55"; "04 47"; "1.2"] ]%string.

Definition example_frame : frame station :=
  Eval vm_compute in
    match coordtable example_catalog with
    | Return f => f
    | Raise _ => []
    end.

(** ** Matching blocks *)

Section Blocks.
Context (a b : list ascii).

(** [a[i:i+k] == b[j:j+k]], both slices within the sequences. *)
Definition agree (i j k : nat) : Prop :=
  ∀ t, (t < k)%nat → ∃ x, a !! (i + t)%nat = Some x ∧ b !! (j + t)%nat = Some x.

(** The positions a dictionary lists for an element hold that element. *)
Definition indexed (m : gmap ascii (list nat)) : Prop :=
  ∀ elt js j, m !! elt = Some js → j ∈ js → b !! j = Some elt.

(** A block within the region [(alo, ahi, blo, bhi)]. *)
Definition inside (alo ahi blo bhi : nat) (x : Difflib.block) : Prop :=
  let '(i, j, k) := x in
  (alo ≤ i ∧ i + k ≤ ahi ∧ blo ≤ j ∧ j + k ≤ bhi)%nat ∧ agree i j k.

(** A common substring of length [k] that ends at [a[i]] and [b[j]] and
    starts within the region. *)
Definition ends (alo blo : nat) (i j k : nat) : Prop :=
  (1 ≤ k ∧ k ≤ S i - alo ∧ k ≤ S j - blo)%nat
  ∧ agree (S i - k) (S j - k) k.

(** [j2len] after the row [i], and before it. *)
Definition row_ok (alo blo : nat) (i : nat) (j2len : gmap nat nat) : Prop :=
  ∀ j k, j2len !! j = Some k → ends alo blo i j k.

Definition prev_ok (alo blo : nat) (i : nat) (j2len : gmap nat nat) : Prop :=
  ∀ j k, j2len !! j = Some k → ∃ i', i = S i' ∧ ends alo blo i' j k.

Definition len_a (r : Difflib.region) : nat := (r.1.1.2 - r.1.1.1)%nat.
Definition len_b (r : Difflib.region) : nat := (r.2 - r.1.2)%nat.

Definition valid (r : Difflib.region) : Prop :=
  (r.1.1.1 ≤ r.1.1.2)%nat ∧ (r.1.2 ≤ r.2)%nat.

(** The two slices of a region are equal. *)
Definition equal_slices (r : Difflib.region) : Prop :=
  len_a r = len_b r ∧ agree r.1.1.1 r.1.2 (len_a r).

Definition total (blocks : list Difflib.block) : nat :=
  sum_list_with Difflib.size blocks.

Definition sum_a (q : list Difflib.region) : nat := sum_list_with len_a q.
Definition sum_b (q : list Difflib.region) : nat := sum_list_with len_b q.

(** The number of turns the loop of [get_matching_blocks] needs for a
    queue. *)
Definition turns (q : list Difflib.region) : nat :=
  sum_list_with (λ r, 2 * len_a r + 1)%nat q.

End Blocks.

(** ** Matching stations *)

(** The label of a catalog row with a given name. *)
Definition named_target (catalog : frame station) (target : string) (i : Z) : Prop :=
  ∃ r, loc catalog i = Return r ∧ name r = Some target.

(** The scan and the lookup of [match_station], behind the renaming. *)
Definition matched (catalog : frame station) (nm : option string) : py (Z * station) :=
  '(maxsim, maxind) ← best_match catalog nm (index catalog) 0%Q (-1)%Z;
  r ← loc catalog maxind;
  Return (maxind, r).

Definition station_named (i n : string) (la lo : Q) : station :=
  {| sid := Some i; name := Some n; type_ := Some "AWS"%string;
     lat := la; lon := lo; elevation := None |}.

Definition de_kooy : station :=
  station_named "235" "De Kooy" (3175 # 60) (287 # 60).
Definition de_bilt : station :=
  station_named "260" "De Bilt" (3126 # 60) (311 # 60).
Definition den_helder : station :=
  station_named "229" "Den Helder" (3178 # 60) (285 # 60).
Definition groningen : station :=
  station_named "280" "Groningen" (3188 # 60) (395 # 60).

Definition example_coords : frame station :=
  [(1%Z, den_helder); (2%Z, de_kooy); (3%Z, groningen)].

(** ** Sums and weights *)

#[global] Instance R_eq_dec : EqDecision R := Req_dec_T.

Definition np_add (v w : option R) : option R :=
  match v, w with
  | Some x, Some y => Some (x + y)%R
  | _, _ => None
  end.

(** The value of a sum: NaN when an entry is NaN. *)
Fixpoint series_sum (s : list (option R)) : option R :=
  match s with
  | [] => Some 0%R
  | v :: s' => np_add v (series_sum s')
  end.

Definition sumR (l : list R) : R := fold_right Rplus 0%R l.

Section Weights.
Context (data : list observation) (x y p : R).

(** The station lies at the query point. *)
Definition coincident (o : observation) : Prop :=
  point_distance (x, y) (coords o) = 0%R.

#[global] Instance coincident_dec (o : observation) : Decision (coincident o) :=
  R_eq_dec _ _.

(** The weight [idw] gives an observation: with a station at the query
    point, 1 for the stations there and 0 for the others; without one, the
    inverse of the distance to the power [p]. *)
Definition weight (o : observation) : R :=
  if decide (Exists coincident data)
  then (if decide (coincident o) then 1 else 0)%R
  else (1 / Rpower (point_distance (x, y) (coords o)) p)%R.

(** The observations that carry weight. *)
Definition used : list observation :=
  if decide (Exists coincident data) then filter coincident data else data.

Definition indicator (o : observation) : R :=
  if decide (coincident o) then 1%R else 0%R.


(** Σ(weight·value) / Σ(weight) over the frame. *)
Definition weighted_average (col : column) : R :=
  (sumR (map (λ o, weight o * default 0 (cell o col)) data)
   / sumR (map weight data))%R.

End Weights.

Definition station_a : observation :=
  {| coords := (0, 0)%R; cell := λ _, None |}.
Definition station_b : observation :=
  {| coords := (1, 2)%R;
     cell := λ col, match col with temp => Some 10%R | _ => None end |}.
Definition station_c : observation :=
  {| coords := (0, 0)%R; cell := λ _, Some 8%R |}.
Definition station_d : observation :=
  {| coords := (3, 4)%R; cell := λ _, Some 5%R |}.
Definition station_west : observation :=
  {| coords := (-1, 0)%R; cell := λ _, Some 8%R |}.
Definition station_east : observation :=
  {| coords := (1, 0)%R; cell := λ _, Some 12%R |}.

(** ** Scores, means and runs *)


(** The score of a catalog row against a name. *)
Definition sim_of (n : string) (r : station) : Q :=
  match name r with
  | Some m => Difflib.ratio (list_ascii_of_string n) (list_ascii_of_string m)
  | None => 0%Q
  end.


(** A measurement row and a catalog page with an empty name cell. *)
Definition example_measurement : measurement :=
  {| station_name := Some "De Kooy"%string; readings := λ _, Some 8%R |}.

Definition example_unnamed : list (list string) :=
  [ header;
    ["210"; " "; "AWS"; "52 10"; "04 25"; "-0.2"];
    ["235"; "De Kooy"; "AWS"; "52 55"; "04 47"; "1.2"] ]%string.

Definition example_unnamed_frame : frame station :=
  Eval vm_compute in
    match coordtable example_unnamed with
    | Return f => f
    | Raise _ => []
    end.

(** ** A sequence against itself *)

(** The element [a[i]] has positions in [b2j] (it is not popular), for
    [b = a]; and the length of the run of such elements that ends at
    [a[i]]. *)
Definition kept (a : list ascii) (i : nat) : bool :=
  match Difflib.positions_of a a i with
  | [] => false
  | _ :: _ => true
  end.

Fixpoint run (a : list ascii) (i : nat) : nat :=
  match i with
  | O => if kept a 0 then 1 else 0
  | S i' => if kept a i then S (run a i') else 0
  end.

(** The state of the loop of [find_longest_match] before the row [i], for
    [b = a] and the whole of both sequences: the lengths in [j2len] do not
    exceed the runs, the length on the diagonal is the run, and the best
    block lies on the diagonal and is as long as the longest run so far. *)
Definition diagonal (a : list ascii) (i : nat)
    (st : gmap nat nat * Difflib.block) : Prop :=
  (∀ j k, st.1 !! j = Some k →
     ∃ i', i = S i' ∧ (k ≤ run a i')%nat ∧ (k ≤ run a j)%nat)
  ∧ (∀ i', i = S i' → default 0%nat (st.1 !! i') = run a i')
  ∧ (∃ bi bk, st.2 = (bi, bi, bk) ∧ ∀ t, (t < i)%nat → (run a t ≤ bk)%nat).

(** * Proofs *)

(** ** Facts about the pattern matcher *)

Lemma digit_not_space c : Re.is_digit c = true → Re.is_space c = false.
Proof.
  unfold Re.is_digit, Re.is_space. intros H.
  apply andb_true_iff in H as [H1 H2].
  apply Nat.leb_le in H1. apply Nat.leb_le in H2.
  repeat (apply orb_false_iff; split);
    try (apply andb_false_iff);
    try (apply Nat.eqb_neq; lia).
  - right. apply Nat.leb_gt. lia.
  - right. apply Nat.leb_gt. lia.
Qed.

Lemma space_not_digit c : Re.is_space c = true → Re.is_digit c = false.
Proof.
  intros H. destruct (Re.is_digit c) eqn:E; [|done].
  apply digit_not_space in E. congruence.
Qed.

Lemma not_space_dot c : Re.is_space c = false → Re.is_dot c = true.
Proof.
  unfold Re.is_dot, Re.is_space. intros H.
  apply negb_true_iff, Nat.eqb_neq. intros E. rewrite E in H. discriminate.
Qed.

Lemma star_stops cls p t :
  match t with [] => True | c :: _ => cls c = false end →
  Re.match_here (Re.Star cls :: p) t = Re.match_here p t.
Proof. destruct t as [|c t]; simpl; [done|]. by intros ->. Qed.

Lemma star_step cls p c s :
  cls c = true →
  Re.match_here (Re.Star cls :: p) (c :: s) =
  match Re.match_here (Re.Star cls :: p) s with
  | Some (caps, n) => Some (caps, S n)
  | None => Re.match_here p (c :: s)
  end.
Proof. intros H. simpl. by rewrite H. Qed.

(** A greedy star over white space takes all of it when the rest of the
    pattern matches behind it. *)
Lemma star_spaces p ws t caps n :
  spaces ws → stops t →
  Re.match_here p t = Some (caps, n) →
  Re.match_here (Re.Star Re.is_space :: p) (ws ++ t)
  = Some (caps, (length ws + n)%nat).
Proof.
  intros Hws Hst Ht. induction Hws as [|c ws Hc Hws IH].
  - rewrite star_stops; [done|]. by destruct t.
  - cbn [app length]. rewrite star_step by done. by rewrite IH.
Qed.

Lemma one_step cap cls p c s :
  cls c = true →
  Re.match_here (Re.One cap cls :: p) (c :: s) =
  match Re.match_here p s with
  | Some (caps, n) => Some (if cap then c :: caps else caps, S n)
  | None => None
  end.
Proof. intros H. simpl. by rewrite H. Qed.

Lemma one_fails cap cls p s :
  match s with [] => True | c :: _ => cls c = false end →
  Re.match_here (Re.One cap cls :: p) s = None.
Proof. destruct s as [|c s]; simpl; [done|]. by intros ->. Qed.

Lemma match_here_length p : ∀ s caps n,
  Re.match_here p s = Some (caps, n) → (n ≤ length s)%nat.
Proof.
  induction p as [|[cap cls|cls|cls] p IH]; intros s caps n.
  - simpl. intros [= _ <-]. lia.
  - destruct s as [|c s]; simpl; [done|].
    destruct (cls c); [|done].
    destruct (Re.match_here p s) as [[caps' n']|] eqn:E; [|done].
    intros [= _ <-]. apply IH in E. lia.
  - induction s as [|c s IHs] in caps, n |- *.
    + simpl. apply IH.
    + intros H. destruct (cls c) eqn:Hc.
      * rewrite star_step in H by done.
        destruct (Re.match_here (Re.Star cls :: p) s) as [[caps' n']|] eqn:E.
        -- injection H as _ <-. specialize (IHs caps' n' eq_refl). simpl. lia.
        -- apply IH in H. done.
      * rewrite star_stops in H by done. by apply IH in H.
  - destruct s as [|c s]; simpl; [apply IH|].
    destruct (cls c); [|apply IH].
    destruct (Re.match_here p s) as [[caps' n']|] eqn:E.
    + intros [= _ <-]. apply IH in E. lia.
    + intros H. apply IH in H. done.
Qed.

(** The tail [\s*.?\s*] of the pattern always matches; it takes the white
    space, one more character when there is one, and the white space behind
    it. *)
Lemma tail_end ws :
  spaces ws →
  Re.match_here [Re.Star Re.is_space; Re.Opt Re.is_dot; Re.Star Re.is_space] ws
  = Some ([], length ws).
Proof.
  intros Hws. rewrite <- (app_nil_r ws) at 1.
  rewrite (star_spaces _ ws [] [] 0%nat); [by rewrite Nat.add_0_r|done|done|done].
Qed.

Lemma tail_sep ws c ws' t :
  spaces ws → Re.is_space c = false → spaces ws' → stops t →
  Re.match_here [Re.Star Re.is_space; Re.Opt Re.is_dot; Re.Star Re.is_space]
                (ws ++ c :: ws' ++ t)
  = Some ([], (length ws + S (length ws'))%nat).
Proof.
  intros Hws Hc Hws' Ht.
  apply star_spaces; [done|done|].
  cbn [Re.match_here]. rewrite (not_space_dot c Hc).
  change ((fix star (s : list ascii) := _) (ws' ++ t))
    with (Re.match_here [Re.Star Re.is_space] (ws' ++ t)).
  rewrite (star_spaces [] ws' t [] 0%nat); [|done|done|done].
  by rewrite Nat.add_0_r.
Qed.

(** ** [degmin_to_decdeg] on written coordinates *)

Lemma match_pair ld d1 d2 gp m1 m2 u n :
  spaces ld → spaces gp →
  Re.is_digit d1 = true → Re.is_digit d2 = true →
  Re.is_digit m1 = true → Re.is_digit m2 = true →
  Re.match_here tail3 u = Some ([], n) →
  Re.match_here degmin_pattern (ld ++ d1 :: d2 :: gp ++ m1 :: m2 :: u)
  = Some ([d1; d2; m1; m2], (length ld + (2 + (length gp + (2 + n))))%nat).
Proof.
  intros Hld Hgp Hd1 Hd2 Hm1 Hm2 Hu. unfold degmin_pattern.
  apply star_spaces; [done|by apply digit_not_space|].
  rewrite !one_step by done.
  rewrite (star_spaces _ gp _ [m1; m2] (2 + n)%nat);
    [done|done|by apply digit_not_space|].
  rewrite !one_step by done. fold tail3. by rewrite Hu.
Qed.

Lemma findall_skip pat u rest :
  Re.findall_from pat (length u) (u ++ rest) = Re.findall_from pat 0 rest.
Proof. induction u as [|c u IH]; [done|]. simpl. exact IH. Qed.

Lemma findall_match pat c u rest caps :
  Re.match_here pat (c :: u ++ rest) = Some (caps, S (length u)) →
  Re.findall_from pat 0 (c :: u ++ rest) = caps :: Re.findall_from pat 0 rest.
Proof. intros H. cbn [Re.findall_from]. rewrite H. simpl. by rewrite findall_skip. Qed.

Lemma star_one_pos cls cap cls' p : ∀ s caps n,
  Re.match_here (Re.Star cls :: Re.One cap cls' :: p) s = Some (caps, n) →
  (1 ≤ n)%nat.
Proof.
  induction s as [|c s IH]; intros caps n H.
  - simpl in H. done.
  - destruct (cls c) eqn:Hc.
    + rewrite star_step in H by done.
      destruct (Re.match_here _ s) as [[caps' n']|].
      * injection H as _ <-. lia.
      * simpl in H. destruct (cls' c); [|done].
        destruct (Re.match_here p s) as [[??]|]; [|done].
        injection H as _ <-. lia.
    + rewrite star_stops in H by done.
      simpl in H. destruct (cls' c); [|done].
      destruct (Re.match_here p s) as [[??]|]; [|done].
      injection H as _ <-. lia.
Qed.

(** White space before a match belongs to it. *)
Lemma degmin_leading_space c s :
  Re.is_space c = true →
  Re.match_here degmin_pattern (c :: s)
  = match Re.match_here degmin_pattern s with
    | Some (caps, n) => Some (caps, S n)
    | None => None
    end.
Proof.
  intros Hc. unfold degmin_pattern. rewrite star_step by done.
  destruct (Re.match_here _ s) as [[caps n]|]; [done|].
  apply one_fails. by apply space_not_digit.
Qed.

Lemma findall_spaces ws t :
  spaces ws →
  Re.findall_from degmin_pattern 0 (ws ++ t) = Re.findall_from degmin_pattern 0 t.
Proof.
  intros Hws. induction Hws as [|c ws Hc Hws IH]; [done|].
  cbn [app Re.findall_from]. rewrite degmin_leading_space by done.
  destruct (Re.match_here degmin_pattern (ws ++ t)) as [[caps n]|] eqn:E;
    [|exact IH].
  rewrite <- IH. cbn [Nat.pred].
  pose proof (star_one_pos _ _ _ _ _ _ _ E) as Hn.
  pose proof (match_here_length _ _ _ _ E) as Hl.
  destruct (ws ++ t) as [|x r]; [simpl in Hl; lia|].
  destruct n as [|n]; [lia|].
  cbn [Re.findall_from]. by rewrite E.
Qed.

Lemma split_spaces (s : list ascii) : ∃ ws t, s = ws ++ t ∧ spaces ws ∧ stops t.
Proof.
  induction s as [|c s (ws & t & -> & Hws & Ht)].
  - exists [], []. by repeat split; try constructor.
  - destruct (Re.is_space c) eqn:Hc.
    + exists (c :: ws), t. split; [done|]. split; [by constructor|done].
    + exists [], (c :: ws ++ t). split; [done|]. split; [constructor|done].
Qed.

Lemma body_nonempty g : ∃ c u, body g = c :: u.
Proof.
  unfold body. destruct (lead g) as [|c u]; simpl; eauto.
Qed.

(** A pair followed by a character: the match takes the pair, the
    character and the white space around it, and the scan goes on behind. *)
Lemma findall_group g rest :
  well_written g → sep g ≠ None →
  Re.findall_from degmin_pattern 0 (written g ++ rest)
  = captured g :: Re.findall_from degmin_pattern 0 rest.
Proof.
  intros (Hld & Hgp & Htr & Hd1 & Hd2 & Hm1 & Hm2 & Hsep) Hs.
  destruct (sep g) as [c|] eqn:Ec; [clear Hs|done].
  specialize (Hsep c eq_refl).
  destruct (split_spaces rest) as (ws & t & -> & Hws & Ht).
  rewrite (findall_spaces ws t Hws).
  unfold written. rewrite Ec.
  destruct (body_nonempty g) as (x & u & Eb).
  replace ((body g ++ [c]) ++ ws ++ t) with (x :: (u ++ c :: ws) ++ t)
    by (rewrite Eb; simpl; rewrite <- !app_assoc; done).
  apply findall_match.
  replace (x :: (u ++ c :: ws) ++ t)
    with (lead g ++ deg1 g :: deg2 g :: gap g ++ min1 g :: min2 g
            :: (trail g ++ c :: ws ++ t)).
  2:{ change (x :: (u ++ c :: ws) ++ t) with (((x :: u) ++ (c :: ws)) ++ t).
      rewrite <- Eb. unfold body. rewrite <- !app_assoc. simpl.
      by rewrite <- !app_assoc. }
  rewrite (match_pair _ _ _ _ _ _ _ (length (trail g) + S (length ws)));
    [|done..|by apply tail_sep].
  f_equal. f_equal.
  assert (length (body g) = S (length u)) as Hl by (by rewrite Eb).
  unfold body in Hl. rewrite !length_app in *. simpl in *.
  rewrite !length_app in *. simpl in *. lia.
Qed.

(** The last pair of a text, followed by white space only. *)
Lemma findall_last g ws :
  well_written g → sep g = None → spaces ws →
  Re.findall_from degmin_pattern 0 (written g ++ ws) = [captured g].
Proof.
  intros (Hld & Hgp & Htr & Hd1 & Hd2 & Hm1 & Hm2 & Hsep) Hs Hws.
  unfold written. rewrite Hs, app_nil_r.
  destruct (body_nonempty g) as (x & u & Eb).
  replace (body g ++ ws) with (x :: (u ++ ws) ++ []) at 1
    by (rewrite Eb, app_nil_r; done).
  change [captured g] with (captured g :: Re.findall_from degmin_pattern 0 []).
  apply findall_match.
  replace (x :: (u ++ ws) ++ [])
    with (lead g ++ deg1 g :: deg2 g :: gap g ++ min1 g :: min2 g
            :: (trail g ++ ws)).
  2:{ rewrite app_nil_r. change (x :: u ++ ws) with ((x :: u) ++ ws).
      rewrite <- Eb. unfold body. rewrite <- !app_assoc. simpl.
      by rewrite <- !app_assoc. }
  rewrite (match_pair _ _ _ _ _ _ _ (length (trail g ++ ws)));
    [|done..|apply tail_end; by apply Forall_app].
  f_equal. f_equal.
  assert (length (body g) = S (length u)) as Hl by (by rewrite Eb).
  unfold body in Hl. rewrite !length_app in *. simpl in *.
  rewrite !length_app in *. simpl in *. lia.
Qed.

Lemma findall_only_spaces ws :
  spaces ws → Re.findall_from degmin_pattern 0 ws = [].
Proof.
  intros Hws. rewrite <- (app_nil_r ws). by rewrite findall_spaces.
Qed.

Lemma findall_written gs ws :
  Forall well_written gs → separated gs → spaces ws →
  Re.findall_from degmin_pattern 0 (concat (map written gs) ++ ws)
  = map captured gs.
Proof.
  intros Hgs. induction Hgs as [|g gs Hg Hgs IH]; intros Hsep Hws.
  - simpl. by apply findall_only_spaces.
  - destruct Hsep as [Hlast Hsep]. cbn [map concat].
    destruct (sep g) as [c|] eqn:Ec.
    + rewrite <- app_assoc, findall_group; [|done|congruence].
      by rewrite IH.
    + destruct Hlast as [->|]; [|done].
      simpl. rewrite app_nil_r. by apply findall_last.
Qed.

Lemma findall_no_match pat (s : list ascii) :
  (∀ t, t `suffix_of` s → Re.match_here pat t = None) →
  Re.findall_from pat 0 s = [].
Proof.
  induction s as [|c s IH]; intros H; [done|].
  cbn [Re.findall_from]. rewrite (H (c :: s)) by done.
  apply IH. intros t Ht. apply H. by apply suffix_cons_r.
Qed.

Section WrittenCoordinates.
Local Open Scope string_scope.

(** C2, as stated, fails: a pair written with punctuation between the
    degrees and the minutes is not found, and of two pairs separated by
    white space only the first is found, the optional character of the
    pattern taking the first digit of the second. *)
Lemma degmin_to_decdeg_counterexample :
  degmin_to_decdeg "52.10" = []
  ∧ length (degmin_to_decdeg "52 10 04 30") ≠ 2%nat.
Proof. split; [reflexivity|vm_compute; lia]. Qed.

(** C2, amended: a text of [k] pairs, each two digits, white space, two
    digits, and each but the last followed (after white space) by a
    character that is not white space, yields the [k] values degrees +
    minutes/60 in the order of the text; a text with no match at any
    position yields the empty list.  The function is total: there is no
    error. *)
Theorem degmin_to_decdeg_written (gs : list group) (ws : list ascii) (s : string) :
  Forall well_written gs → separated gs → spaces ws →
  (∀ i, Re.match_here degmin_pattern (drop i (list_ascii_of_string s)) = None) →
  degmin_to_decdeg (string_of_list_ascii (concat (map written gs) ++ ws))
  = map decimal gs
  ∧ length (degmin_to_decdeg (string_of_list_ascii (concat (map written gs) ++ ws)))
    = length gs
  ∧ degmin_to_decdeg s = [].
Proof.
  intros Hgs Hsep Hws Hno.
  assert (degmin_to_decdeg (string_of_list_ascii (concat (map written gs) ++ ws))
          = map decimal gs) as E.
  { unfold degmin_to_decdeg, Re.findall.
    rewrite list_ascii_of_string_of_list_ascii, findall_written by done.
    rewrite map_map. done. }
  split; [exact E|]. split; [by rewrite E, length_map|].
  unfold degmin_to_decdeg, Re.findall. rewrite findall_no_match; [done|].
  intros t [k Hk]. specialize (Hno (length k)).
  by rewrite Hk, drop_app_length in Hno.
Qed.

Lemma degmin_to_decdeg_written_witness :
  degmin_to_decdeg "52 10N 04 30" = [(52 + 10 / 60)%Q; (4 + 30 / 60)%Q]
  ∧ length (degmin_to_decdeg "52 10N 04 30") = 2%nat
  ∧ degmin_to_decdeg "52.10" = [].
Proof.
  apply (degmin_to_decdeg_written [group_52_10_N; group_04_30] [] "52.10").
  - repeat constructor; by intros c [= <-].
  - simpl. split; [right; discriminate|]. split; [by left|done].
  - constructor.
  - intros i. do 6 (destruct i as [|i]; [reflexivity|]). reflexivity.
Defined.

End WrittenCoordinates.

(** ** What a match of the coordinate pattern captures *)

Lemma star_inv cls p : ∀ s caps n,
  Re.match_here (Re.Star cls :: p) s = Some (caps, n) →
  ∃ t k, Re.match_here p t = Some (caps, k).
Proof.
  induction s as [|c s IH]; intros caps n H.
  - simpl in H. eauto.
  - destruct (cls c) eqn:Hc.
    + rewrite star_step in H by done.
      destruct (Re.match_here (Re.Star cls :: p) s) as [[caps' n']|] eqn:E; [|eauto].
      injection H as <- _. by apply (IH caps' n').
    + rewrite star_stops in H by done. eauto.
Qed.

Lemma opt_inv cls p s caps n :
  Re.match_here (Re.Opt cls :: p) s = Some (caps, n) →
  ∃ t k, Re.match_here p t = Some (caps, k).
Proof.
  destruct s as [|c s]; simpl; [eauto|].
  destruct (cls c); [|eauto].
  destruct (Re.match_here p s) as [[caps' n']|] eqn:E; [|eauto].
  intros [= <- _]. eauto.
Qed.

Lemma one_inv cls p s caps n :
  Re.match_here (Re.One true cls :: p) s = Some (caps, n) →
  ∃ c caps' t k, caps = c :: caps' ∧ cls c = true
                 ∧ Re.match_here p t = Some (caps', k).
Proof.
  destruct s as [|c s]; simpl; [done|].
  destruct (cls c) eqn:Hc; [|done].
  destruct (Re.match_here p s) as [[caps' n']|] eqn:E; [|done].
  intros [= <- _]. eauto 10.
Qed.

Lemma degmin_captures s caps n :
  Re.match_here degmin_pattern s = Some (caps, n) → four_digits caps.
Proof.
  unfold degmin_pattern. intros H.
  apply star_inv in H as (t1 & k1 & H).
  apply one_inv in H as (d1 & c1 & t2 & k2 & -> & Hd1 & H).
  apply one_inv in H as (d2 & c2 & t3 & k3 & -> & Hd2 & H).
  apply star_inv in H as (t4 & k4 & H).
  apply one_inv in H as (m1 & c3 & t5 & k5 & -> & Hm1 & H).
  apply one_inv in H as (m2 & c4 & t6 & k6 & -> & Hm2 & H).
  apply star_inv in H as (t7 & k7 & H).
  apply opt_inv in H as (t8 & k8 & H).
  apply star_inv in H as (t9 & k9 & H).
  simpl in H. injection H as <- _.
  by exists d1, d2, m1, m2.
Qed.

Lemma findall_Forall pat (P : list ascii → Prop) :
  (∀ t caps n, Re.match_here pat t = Some (caps, n) → P caps) →
  ∀ s k, Forall P (Re.findall_from pat k s).
Proof.
  intros HP. induction s as [|c s IH]; intros k; [constructor|].
  cbn [Re.findall_from]. destruct k as [|k]; [|apply IH].
  destruct (Re.match_here pat (c :: s)) as [[caps n]|] eqn:E; [|apply IH].
  constructor; [by eapply HP|apply IH].
Qed.

(** ** The range of a converted coordinate *)

Lemma digit_val_range c : Re.is_digit c = true → (0 ≤ digit_val c ≤ 9)%Z.
Proof.
  unfold Re.is_digit, digit_val. intros H.
  apply andb_true_iff in H as [H1 H2].
  apply Nat.leb_le in H1. apply Nat.leb_le in H2. lia.
Qed.

Lemma float2_range d1 d2 :
  Re.is_digit d1 = true → Re.is_digit d2 = true →
  (0 <= float2 d1 d2 <= 99)%Q.
Proof.
  intros H1 H2. apply digit_val_range in H1. apply digit_val_range in H2.
  unfold float2. split.
  - change 0%Q with (inject_Z 0). rewrite <- Zle_Qle. lia.
  - change 99%Q with (inject_Z 99). rewrite <- Zle_Qle. lia.
Qed.

Lemma decdeg_of_range caps : four_digits caps → decdeg_range (decdeg_of caps).
Proof.
  intros (d1 & d2 & m1 & m2 & -> & Hd1 & Hd2 & Hm1 & Hm2).
  pose proof (float2_range d1 d2 Hd1 Hd2) as [H1 H2].
  pose proof (float2_range m1 m2 Hm1 Hm2) as [H3 H4].
  unfold decdeg_range, decdeg_max, decdeg_of.
  set (u := float2 d1 d2) in *. set (v := float2 m1 m2) in *.
  clearbody u v. unfold Qdiv. change (/ 60)%Q with (1 # 60)%Q. split; lra.
Qed.

Lemma degmin_to_decdeg_range s : Forall decdeg_range (degmin_to_decdeg s).
Proof.
  unfold degmin_to_decdeg, Re.findall. apply Forall_map.
  eapply Forall_impl; [apply (findall_Forall _ four_digits)|].
  - intros t caps n. apply degmin_captures.
  - intros caps. apply decdeg_of_range.
Qed.

(** ** [coordtable] *)

Lemma first_decdeg_range cell d : first_decdeg cell = Return d → decdeg_range d.
Proof.
  destruct cell as [s|]; simpl; [|done].
  pose proof (degmin_to_decdeg_range s) as H.
  destruct (degmin_to_decdeg s) as [|d' l]; [done|].
  intros [= <-]. by inversion H.
Qed.

Lemma first_decdeg_unparsed cell :
  unparsed cell → ∃ e, first_decdeg cell = Raise e ∧ parse_error e.
Proof.
  intros H. destruct cell as [s|]; simpl.
  - rewrite (H s eq_refl). exists IndexError. split; [done|by left].
  - exists TypeError. split; [done|by right].
Qed.

Lemma first_decdeg_raise cell e : first_decdeg cell = Raise e → parse_error e.
Proof.
  destruct cell as [s|]; simpl.
  - destruct (degmin_to_decdeg s); [|done]. intros [= <-]. by left.
  - intros [= <-]. by right.
Qed.

Lemma convert_return r s :
  convert r = Return s →
  decdeg_range (lat s) ∧ decdeg_range (lon s) ∧ sid s = raw_sid r
  ∧ name s = raw_name r.
Proof.
  unfold convert.
  destruct (first_decdeg (raw_lat r)) as [e|la] eqn:Ela; [done|].
  destruct (first_decdeg (raw_lon r)) as [e|lo] eqn:Elo; [done|].
  simpl. intros [= <-]. simpl.
  split; [by eapply first_decdeg_range|].
  split; [by eapply first_decdeg_range|done].
Qed.

Lemma convert_raise r e : convert r = Raise e → parse_error e.
Proof.
  unfold convert.
  destruct (first_decdeg (raw_lat r)) as [e1|la] eqn:Ela.
  { simpl. intros [= <-]. by eapply first_decdeg_raise. }
  destruct (first_decdeg (raw_lon r)) as [e2|lo] eqn:Elo; [|done].
  simpl. intros [= <-]. by eapply first_decdeg_raise.
Qed.

Lemma convert_unparsed r :
  unparsed (raw_lat r) ∨ unparsed (raw_lon r) →
  ∃ e, convert r = Raise e ∧ parse_error e.
Proof.
  intros H. destruct (convert r) as [e|s] eqn:E.
  { exists e. split; [done|by eapply convert_raise]. }
  exfalso. unfold convert in E.
  destruct (first_decdeg (raw_lat r)) as [e1|la] eqn:Ela; [done|].
  destruct (first_decdeg (raw_lon r)) as [e2|lo] eqn:Elo; [done|].
  destruct H as [H|H]; apply first_decdeg_unparsed in H as (e & H & _); congruence.
Qed.

Lemma convert_rows_return f : ∀ f',
  convert_rows f = Return f' →
  Forall (λ ls, in_range ls.2) f'
  ∧ map (λ ls, sid ls.2) f' = map (λ lr, raw_sid lr.2) f
  ∧ index f' = index f.
Proof.
  induction f as [|[i r] f IH]; intros f'; simpl.
  - intros [= <-]. by repeat split.
  - destruct (convert r) as [e|s] eqn:Er; [done|].
    destruct (convert_rows f) as [e|f''] eqn:Ef; [done|].
    simpl. intros [= <-].
    destruct (IH f'' eq_refl) as (H1 & H2 & H3).
    apply convert_return in Er as (Hla & Hlo & Hsid & _).
    split; [by constructor|]. simpl. by rewrite Hsid, H2, H3.
Qed.

Lemma convert_rows_raise f e : convert_rows f = Raise e → parse_error e.
Proof.
  induction f as [|[i r] f IH]; simpl; [done|].
  destruct (convert r) as [e1|s] eqn:Er.
  { simpl. intros [= <-]. by eapply convert_raise. }
  destruct (convert_rows f) as [e2|f''] eqn:Ef; [|done].
  simpl. intros [= <-]. by apply IH.
Qed.

Lemma convert_rows_unparsed f :
  Exists (λ lr, unparsed (raw_lat lr.2) ∨ unparsed (raw_lon lr.2)) f →
  ∃ e, convert_rows f = Raise e ∧ parse_error e.
Proof.
  intros H. destruct (convert_rows f) as [e|f'] eqn:E.
  { exists e. split; [done|by eapply convert_rows_raise]. }
  exfalso. induction H as [[i r] f H|[i r] f H IH] in f', E |- *; simpl in E.
  - simpl in H. apply convert_unparsed in H as (e & He & _).
    rewrite He in E. done.
  - destruct (convert r) as [e1|s]; [done|].
    destruct (convert_rows f) as [e2|f'']; [done|]. by eapply IH.
Qed.

Lemma filter_imap_all {A} (P : Z * A → Prop) `{∀ x, Decision (P x)}
    (l : list A) : ∀ f : nat → A → Z * A,
  (∀ i r, P (f i r)) → filter P (imap f l) = imap f l.
Proof.
  induction l as [|x l IH]; intros f Hf; [done|].
  simpl. rewrite filter_cons. destruct (decide _) as [_|Hn]; [|by destruct Hn].
  f_equal. apply IH.
  intros i r. apply Hf.
Qed.

Lemma drop0_enlarge {A} (rows : list A) :
  drop0 (enlarge rows)
  = match rows with
    | [] => Raise KeyError
    | _ :: data => Return (relabel data)
    end.
Proof.
  destruct rows as [|h data]; [done|].
  unfold drop0, enlarge. simpl. f_equal.
  rewrite filter_cons. destruct (decide _) as [H|_]; [by destruct H|].
  apply filter_imap_all. intros i r. simpl. lia.
Qed.

Lemma relabel_snd {A} (data : list A) : map snd (relabel data) = data.
Proof.
  unfold relabel. generalize S as g. induction data as [|x l IH]; intros g; [done|].
  simpl. f_equal. apply (IH (g ∘ S)).
Qed.

Lemma relabel_Exists {A} (P : A → Prop) (data : list A) :
  Exists P data → Exists (λ lr, P lr.2) (relabel data).
Proof.
  rewrite <- (relabel_snd data) at 1. generalize (relabel data) as f.
  intros f. rewrite !List.Exists_exists. intros (x & Hx & HP).
  apply in_map_iff in Hx as ([l r] & <- & Hx). by exists (l, r).
Qed.

Lemma coordtable_unfold rows :
  coordtable rows
  = match omap six_cells rows with
    | [] => Raise KeyError
    | _ :: data => convert_rows (relabel data)
    end.
Proof.
  unfold coordtable. rewrite drop0_enlarge.
  by destruct (omap six_cells rows).
Qed.

Section Catalog.
Local Open Scope string_scope.

(** C8, as stated, fails: with a latitude that does not parse in one row,
    the build raises [IndexError]; no frame is returned, also not one
    without that station. *)
Lemma coordtable_unparsed_counterexample :
  coordtable [ header;
               ["210"; "Valkenburg"; "AWS"; "52.10"; "04 25"; "-0.2"];
               ["235"; "De Kooy"; "AWS"; "52 55"; "04 47"; "1.2"] ]
  = Raise IndexError.
Proof. reflexivity. Qed.

(** C8, amended: when the latitude or the longitude cell of a data row
    (a six-cell row after the first one) does not parse, because it is
    empty or holds no match, the build raises [IndexError] or [TypeError]:
    the run is aborted, no station is excluded and no warning given. *)
Theorem coordtable_unparsed (rows : list (list string)) (hdr : raw_station)
    (data : list raw_station) :
  omap six_cells rows = hdr :: data →
  Exists (λ r, unparsed (raw_lat r) ∨ unparsed (raw_lon r)) data →
  ∃ e, coordtable rows = Raise e ∧ (e = IndexError ∨ e = TypeError).
Proof.
  intros Hrows Hbad. rewrite coordtable_unfold, Hrows.
  apply convert_rows_unparsed.
  by apply (relabel_Exists (λ r, unparsed (raw_lat r) ∨ unparsed (raw_lon r))).
Qed.

Lemma coordtable_unparsed_witness :
  ∃ e, coordtable [ header;
                    ["210"; "Valkenburg"; "AWS"; "52 10"; ""; "-0.2"];
                    ["235"; "De Kooy"; "AWS"; "52 55"; "04 47"; "1.2"] ]
       = Raise e ∧ (e = IndexError ∨ e = TypeError).
Proof.
  eapply coordtable_unparsed.
  - reflexivity.
  - left. right. intros s H. discriminate H.
Defined.

(** C9, as stated, fails: degrees above 90 are accepted in a latitude,
    and two rows of the page with the same id give two records with that
    id. *)
Lemma coordtable_records_counterexample :
  ∃ f, coordtable [ header;
                    ["210"; "Valkenburg"; "AWS"; "95 00"; "04 25"; "-0.2"];
                    ["210"; "De Kooy"; "AWS"; "52 55"; "04 47"; "1.2"] ]
       = Return f
    ∧ Exists (λ ls, (90 < lat ls.2)%Q) f
    ∧ ¬ NoDup (map (λ ls, sid ls.2) f).
Proof.
  eexists. split; [reflexivity|]. split.
  - left. reflexivity.
  - simpl. intros H. apply NoDup_cons in H as [H _]. apply H. left.
Qed.

(** C9, amended: every record of the catalog has its latitude and its
    longitude between 0 and 99 + 99/60 = 100.65, so a longitude is within
    [-180, 180] and a latitude is at least -90 (but may exceed 90); the ids
    of the records are the id cells of the data rows, in order, so they are
    unique when those are. *)
Theorem coordtable_records (rows : list (list string)) (f : frame station) :
  coordtable rows = Return f →
  Forall (λ ls, (0 <= lat ls.2 <= decdeg_max)%Q
                ∧ (0 <= lon ls.2 <= decdeg_max)%Q
                ∧ (-180 <= lon ls.2 <= 180)%Q) f
  ∧ map (λ ls, sid ls.2) f = map raw_sid (tail (omap six_cells rows))
  ∧ (NoDup (map raw_sid (tail (omap six_cells rows)))
     → NoDup (map (λ ls, sid ls.2) f)).
Proof.
  rewrite coordtable_unfold. intros H.
  destruct (omap six_cells rows) as [|hdr data]; [done|].
  apply convert_rows_return in H as (Hr & Hs & _).
  assert (map (λ ls, sid ls.2) f = map raw_sid data) as E.
  { rewrite Hs. rewrite <- (relabel_snd data) at 2. by rewrite map_map. }
  split; [|split; [exact E|by rewrite E]].
  eapply Forall_impl; [exact Hr|].
  intros [l s] [[H1 H2] [H3 H4]]. simpl in *.
  unfold decdeg_max in *. repeat split; try done; lra.
Qed.

Lemma coordtable_records_witness :
  coordtable example_catalog = Return example_frame
  ∧ Forall (λ ls, (0 <= lat ls.2 <= decdeg_max)%Q
                  ∧ (0 <= lon ls.2 <= decdeg_max)%Q
                  ∧ (-180 <= lon ls.2 <= 180)%Q) example_frame
  ∧ map (λ ls, sid ls.2) example_frame
    = map raw_sid (tail (omap six_cells example_catalog))
  ∧ (NoDup (map raw_sid (tail (omap six_cells example_catalog)))
     → NoDup (map (λ ls, sid ls.2) example_frame)).
Proof.
  split; [reflexivity|].
  apply (coordtable_records example_catalog example_frame). reflexivity.
Defined.

Lemma index_imap {A} (g : nat → Z) (l : list A) :
  index (imap (λ i r, (g i, r)) l) = g <$> seq 0 (length l).
Proof.
  unfold index. revert g. induction l as [|x l IH]; intros g; [done|].
  cbn [imap map length seq fmap list_fmap]. f_equal.
  change (imap ((λ i r, (g i, r)) ∘ S) l) with (imap (λ i r, ((g ∘ S) i, r)) l).
  rewrite IH, <- seq_shift, list_fmap_compose. reflexivity.
Qed.

(** The labels of the catalog frame are 1, 2, ... : they are distinct. *)
Lemma coordtable_index rows f :
  coordtable rows = Return f → NoDup (index f).
Proof.
  rewrite coordtable_unfold. destruct (omap six_cells rows) as [|hdr data]; [done|].
  intros (_ & _ & ->)%convert_rows_return. unfold relabel.
  rewrite (index_imap (λ i, Z.of_nat (S i))).
  apply NoDup_fmap_2; [|apply NoDup_seq].
  intros i j H. lia.
Qed.

End Catalog.

(** ** Matching blocks are common substrings *)

Section SequenceMatcherFacts.
Context (a b : list ascii).
Local Abbreviation agree := (agree a b).
Local Abbreviation indexed := (indexed b).
Local Abbreviation inside := (inside a b).
Local Abbreviation equal_slices := (equal_slices a b).

Lemma positions_indexed : indexed (Difflib.positions b).
Proof.
  unfold Difflib.positions.
  assert (Forall (λ ie : nat * ascii, b !! ie.1 = Some ie.2) (imap pair b)) as Hl.
  { apply Forall_forall. intros [i x] Hx.
    apply list_elem_of_lookup in Hx as [n Hn].
    rewrite list_lookup_imap in Hn.
    destruct (b !! n) as [y|] eqn:E; simpl in Hn; [|done].
    by injection Hn as <- <-. }
  assert (indexed ∅) as Hm by (intros elt js j H; by rewrite lookup_empty in H).
  revert Hl Hm. generalize (imap pair b) as l, (∅ : gmap ascii (list nat)) as m.
  induction l as [|[i x] l IH]; intros m Hl Hm; [done|].
  simpl. apply IH; [by inversion Hl|].
  inversion Hl as [|? ? Hix _]; subst. simpl in Hix.
  intros elt js j Hlk Hj.
  destruct (decide (x = elt)) as [->|Hne].
  - rewrite lookup_insert_eq in Hlk. injection Hlk as <-.
    apply elem_of_app in Hj as [Hj|Hj].
    + destruct (m !! elt) as [js0|] eqn:E; simpl in Hj.
      * by eapply Hm.
      * by apply elem_of_nil in Hj.
    + apply list_elem_of_singleton in Hj as ->. done.
  - rewrite lookup_insert_ne in Hlk by done. by eapply Hm.
Qed.

Lemma b2j_indexed : indexed (Difflib.b2j b).
Proof.
  unfold Difflib.b2j. destruct (200 <=? length b)%nat.
  - intros elt js j H Hj. apply map_lookup_filter_Some in H as [H _].
    by eapply positions_indexed.
  - apply positions_indexed.
Qed.

Lemma positions_of_same i j :
  j ∈ Difflib.positions_of a b i →
  ∃ x, a !! i = Some x ∧ b !! j = Some x.
Proof.
  unfold Difflib.positions_of. destruct (a !! i) as [x|]; [|by intros ?%elem_of_nil].
  destruct (Difflib.b2j b !! x) as [js|] eqn:E; simpl; [|by intros ?%elem_of_nil].
  intros Hj. exists x. split; [done|]. by eapply b2j_indexed.
Qed.

Lemma same_elt_spec i j :
  Difflib.same_elt a b i j = true →
  ∃ x, a !! i = Some x ∧ b !! j = Some x.
Proof.
  unfold Difflib.same_elt.
  destruct (a !! i) as [x|], (b !! j) as [y|]; try done.
  intros ->%bool_decide_eq_true. eauto.
Qed.

Section Region.
Context (alo ahi blo bhi : nat).
Local Abbreviation inside := (inside alo ahi blo bhi).
Local Abbreviation ends := (ends a b alo blo).
Local Abbreviation row_ok := (row_ok a b alo blo).
Local Abbreviation prev_ok := (prev_ok a b alo blo).

Lemma ends_extend i j x :
  (alo ≤ i)%nat → (blo ≤ j)%nat →
  a !! i = Some x → b !! j = Some x →
  ∀ j2len, prev_ok i j2len → ends i j (S (Difflib.j2len_get j2len j)).
Proof.
  intros Hi Hj Ha Hb j2len Hprev. unfold Difflib.j2len_get.
  assert (ends i j 1) as H1.
  { split; [lia|]. intros t Ht. assert (t = 0)%nat as -> by lia.
    exists x. replace (S i - 1 + 0)%nat with i by lia.
    by replace (S j - 1 + 0)%nat with j by lia. }
  destruct j as [|j']; [done|].
  destruct (j2len !! j') as [k|] eqn:E; simpl; [|done].
  destruct (Hprev j' k E) as (i' & -> & (Hk & Hagree)).
  split; [lia|]. intros t Ht.
  destruct (decide (t = k)) as [->|Hne].
  - exists x. replace (S (S i') - S k + k)%nat with (S i') by lia.
    by replace (S (S j') - S k + k)%nat with (S j') by lia.
  - destruct (Hagree t ltac:(lia)) as (y & Hy1 & Hy2). exists y.
    replace (S (S i') - S k + t)%nat with (S i' - k + t)%nat by lia.
    by replace (S (S j') - S k + t)%nat with (S j' - k + t)%nat by lia.
Qed.

Lemma ends_inside i j k :
  (i < ahi)%nat → (j < bhi)%nat → ends i j k →
  inside ((S i - k)%nat, (S j - k)%nat, k).
Proof. intros Hi Hj [Hk Hagree]. split; [lia|done]. Qed.

Lemma scan_row_inv i j2len :
  (alo ≤ i < ahi)%nat → prev_ok i j2len →
  ∀ js newj2len best,
    (∀ j, j ∈ js → ∃ x, a !! i = Some x ∧ b !! j = Some x) →
    row_ok i newj2len → inside best →
    row_ok i (Difflib.scan_row blo bhi i j2len js newj2len best).1
    ∧ inside (Difflib.scan_row blo bhi i j2len js newj2len best).2.
Proof.
  intros Hi Hprev. induction js as [|j js IH]; intros new best Hjs Hnew Hbest.
  - done.
  - cbn [Difflib.scan_row].
    assert (∀ j', j' ∈ js → ∃ x, a !! i = Some x ∧ b !! j' = Some x) as Hjs'.
    { intros j' Hj'. apply Hjs. by right. }
    destruct (j <? blo)%nat eqn:E1; [by apply IH|].
    destruct (bhi <=? j)%nat eqn:E2; [done|].
    apply Nat.ltb_ge in E1. apply Nat.leb_gt in E2.
    destruct (Hjs j ltac:(by left)) as (x & Ha & Hb).
    pose proof (ends_extend i j x ltac:(lia) E1 Ha Hb j2len Hprev) as Hends.
    apply IH; [done| |].
    + intros j' k'. rewrite lookup_insert_Some.
      intros [[<- <-]|[_ H]]; [done|by apply Hnew].
    + destruct (Difflib.size best <? _)%nat; [|done].
      apply ends_inside; [lia|done|done].
Qed.

Lemma longest_inside :
  (alo ≤ ahi)%nat → (blo ≤ bhi)%nat →
  inside (Difflib.longest a b alo ahi blo bhi).
Proof.
  intros Ha Hb. unfold Difflib.longest.
  assert (∀ n i st, (alo ≤ i)%nat → (i + n ≤ ahi)%nat →
            prev_ok i st.1 → inside st.2 →
            inside (fold_left
              (λ st i, Difflib.scan_row blo bhi i st.1
                         (Difflib.positions_of a b i) ∅ st.2)
              (seq i n) st).2) as Hfold.
  { induction n as [|n IH]; intros i st Hi Hn Hprev Hbest; [done|].
    cbn [seq fold_left].
    destruct (scan_row_inv i st.1 ltac:(lia) Hprev
                (Difflib.positions_of a b i) ∅ st.2) as [Hrow Hin].
    - intros j. apply positions_of_same.
    - intros j k H. by rewrite lookup_empty in H.
    - done.
    - apply IH; [lia|lia| |done].
      intros j k H. exists i. split; [done|]. by apply Hrow. }
  apply Hfold; [lia|lia| |].
  - intros j k H. simpl in H. by rewrite lookup_empty in H.
  - simpl. split; [lia|]. intros t Ht. lia.
Qed.

Lemma extend_left_inside : ∀ i j k,
  inside (i, j, k) → inside (Difflib.extend_left a b alo blo i j k).
Proof.
  induction i as [|i IH]; intros j k Hin; [done|].
  destruct j as [|j]; [done|]. cbn [Difflib.extend_left].
  destruct ((alo <? S i)%nat && (blo <? S j)%nat && Difflib.same_elt a b i j)
    eqn:E; [|done].
  apply andb_true_iff in E as [E Hs]. apply andb_true_iff in E as [E1 E2].
  apply Nat.ltb_lt in E1. apply Nat.ltb_lt in E2.
  apply same_elt_spec in Hs as (x & Hx1 & Hx2).
  destruct Hin as [Hb Hagree]. apply IH. split; [lia|].
  intros t Ht. destruct t as [|t].
  - exists x. by rewrite !Nat.add_0_r.
  - destruct (Hagree t ltac:(lia)) as (y & Hy1 & Hy2). exists y.
    replace (i + S t)%nat with (S i + t)%nat by lia.
    by replace (j + S t)%nat with (S j + t)%nat by lia.
Qed.

Lemma extend_right_inside i j : ∀ steps k,
  inside (i, j, k) →
  inside (i, j, Difflib.extend_right a b ahi bhi i j steps k).
Proof.
  induction steps as [|steps IH]; intros k Hin; [done|].
  cbn [Difflib.extend_right].
  destruct ((i + k <? ahi)%nat && (j + k <? bhi)%nat
            && Difflib.same_elt a b (i + k) (j + k)) eqn:E; [|done].
  apply andb_true_iff in E as [E Hs]. apply andb_true_iff in E as [E1 E2].
  apply Nat.ltb_lt in E1. apply Nat.ltb_lt in E2.
  apply same_elt_spec in Hs as (x & Hx1 & Hx2).
  destruct Hin as [Hb Hagree]. apply IH. split; [lia|].
  intros t Ht. destruct (decide (t = k)) as [->|Hne]; [by exists x|].
  apply Hagree. lia.
Qed.

Lemma find_longest_match_inside :
  (alo ≤ ahi)%nat → (blo ≤ bhi)%nat →
  inside (Difflib.find_longest_match a b alo ahi blo bhi).
Proof.
  intros Ha Hb. unfold Difflib.find_longest_match.
  pose proof (longest_inside Ha Hb) as H.
  destruct (Difflib.longest a b alo ahi blo bhi) as [[i j] k].
  apply extend_left_inside in H.
  destruct (Difflib.extend_left a b alo blo i j k) as [[i' j'] k'].
  by apply extend_right_inside.
Qed.
End Region.

(** ** The loop of [get_matching_blocks] *)

Lemma total_snoc blocks x : total (blocks ++ [x]) = (total blocks + Difflib.size x)%nat.
Proof. unfold total. rewrite sum_list_with_app. simpl. lia. Qed.

Lemma empty_slices r : len_a r = 0%nat → len_b r = 0%nat → equal_slices r.
Proof. intros Ha Hb. split; [lia|]. rewrite Ha. intros t Ht. lia. Qed.

Lemma empty_queue_slices q :
  sum_a q = 0%nat → sum_b q = 0%nat → Forall equal_slices q.
Proof.
  induction q as [|r q IH]; [constructor|].
  unfold sum_a, sum_b. simpl. intros Ha Hb.
  constructor; [apply empty_slices; lia|apply IH; unfold sum_a, sum_b; lia].
Qed.

(** A block with equal slices left and right of it makes the slices of
    the region equal. *)
Lemma glue_slices alo ahi blo bhi i j k :
  inside alo ahi blo bhi (i, j, k) →
  equal_slices (alo, i, blo, j) →
  equal_slices ((i + k)%nat, ahi, (j + k)%nat, bhi) →
  equal_slices (alo, ahi, blo, bhi).
Proof.
  unfold equal_slices, len_a, len_b. simpl.
  intros [Hb Hmid] [Hl1 Hl2] [Hr1 Hr2]. split; [lia|].
  intros t Ht.
  destruct (decide (t < i - alo)%nat) as [H1|H1]; [by apply Hl2|].
  destruct (decide (t < i - alo + k)%nat) as [H2|H2].
  - destruct (Hmid (t - (i - alo))%nat ltac:(lia)) as (x & Hx1 & Hx2).
    exists x. replace (alo + t)%nat with (i + (t - (i - alo)))%nat by lia.
    by replace (blo + t)%nat with (j + (t - (i - alo)))%nat by lia.
  - destruct (Hr2 (t - (i - alo) - k)%nat ltac:(lia)) as (x & Hx1 & Hx2).
    exists x. replace (alo + t)%nat with (i + k + (t - (i - alo) - k))%nat by lia.
    by replace (blo + t)%nat with (j + k + (t - (i - alo) - k))%nat by lia.
Qed.

Lemma matching_loop_spec : ∀ fuel q blocks,
  Forall valid q →
  ∃ m, total (Difflib.matching_loop a b fuel q blocks) = (total blocks + m)%nat
       ∧ (m ≤ sum_a q)%nat ∧ (m ≤ sum_b q)%nat
       ∧ (m = sum_a q → m = sum_b q → Forall equal_slices q).
Proof.
  induction fuel as [|fuel IH]; intros q blocks Hq.
  { exists 0%nat. simpl. split; [lia|]. split; [lia|]. split; [lia|].
    intros. by apply empty_queue_slices. }
  destruct q as [|[[[alo ahi] blo] bhi] q].
  { exists 0%nat. simpl. split; [lia|]. split; [lia|]. split; [lia|]. constructor. }
  apply Forall_cons in Hq as [[Hva Hvb] Hq]. simpl in Hva, Hvb.
  cbn [Difflib.matching_loop].
  pose proof (find_longest_match_inside alo ahi blo bhi Hva Hvb) as Hin.
  destruct (Difflib.find_longest_match a b alo ahi blo bhi) as [[i j] k].
  pose proof Hin as [Hb Hagree].
  destruct (k =? 0)%nat eqn:Ek.
  - apply Nat.eqb_eq in Ek as ->.
    destruct (IH q blocks Hq) as (m & Ht & Hma & Hmb & Heq).
    exists m. unfold sum_a, sum_b in *. cbn [sum_list_with].
    unfold len_a at 1, len_b at 1. simpl.
    split; [done|]. split; [lia|]. split; [lia|].
    intros E1 E2. constructor; [apply empty_slices; lia|].
    apply Heq; lia.
  - apply Nat.eqb_neq in Ek.
    set (c1 := (alo <? i)%nat && (blo <? j)%nat).
    set (c2 := (i + k <? ahi)%nat && (j + k <? bhi)%nat).
    assert (c1 = false → (i - alo = 0 ∨ j - blo = 0)%nat) as Hc1.
    { unfold c1. intros [E|E]%andb_false_iff; apply Nat.ltb_ge in E; lia. }
    assert (c2 = false → (ahi - (i + k) = 0 ∨ bhi - (j + k) = 0)%nat) as Hc2.
    { unfold c2. intros [E|E]%andb_false_iff; apply Nat.ltb_ge in E; lia. }
    set (left := (alo, i, blo, j) : Difflib.region) in *.
    set (right := ((i + k)%nat, ahi, (j + k)%nat, bhi) : Difflib.region) in *.
    assert (valid left) as Hvl by (split; simpl; lia).
    assert (valid right) as Hvr by (split; simpl; lia).
    set (q2 := Difflib.push_if c2 right (Difflib.push_if c1 left q)).
    assert (Forall valid q2) as Hq2.
    { unfold q2, Difflib.push_if.
      destruct c1, c2; repeat (apply Forall_cons; split); done. }
    destruct (IH q2 (blocks ++ [(i, j, k)]) Hq2) as (m & Ht & Hma & Hmb & Heq).
    rewrite total_snoc in Ht. unfold Difflib.size in Ht. simpl in Ht.
    exists (k + m)%nat.
    assert (sum_a (((alo, ahi, blo, bhi) : Difflib.region) :: q)
            = (k + (len_a left + len_a right) + sum_a q)%nat) as Ea.
    { unfold sum_a, len_a. simpl. lia. }
    assert (sum_b (((alo, ahi, blo, bhi) : Difflib.region) :: q)
            = (k + (len_b left + len_b right) + sum_b q)%nat) as Eb.
    { unfold sum_b, len_b. simpl. lia. }
    assert (sum_a q2 = ((if c2 then len_a right else 0)
                        + (if c1 then len_a left else 0) + sum_a q)%nat) as Ea2.
    { unfold q2, Difflib.push_if, sum_a. destruct c1, c2; simpl; lia. }
    assert (sum_b q2 = ((if c2 then len_b right else 0)
                        + (if c1 then len_b left else 0) + sum_b q)%nat) as Eb2.
    { unfold q2, Difflib.push_if, sum_b. destruct c1, c2; simpl; lia. }
    rewrite Ea, Eb. rewrite Ea2 in Hma. rewrite Eb2 in Hmb.
    split; [lia|].
    split; [destruct c1, c2; lia|]. split; [destruct c1, c2; lia|].
    intros E1 E2.
    assert (len_a left = i - alo ∧ len_b left = j - blo
            ∧ len_a right = ahi - (i + k) ∧ len_b right = bhi - (j + k))%nat
      as (La1 & Lb1 & La2 & Lb2) by done.
    assert (Forall equal_slices q2) as Hall.
    { apply Heq; rewrite ?Ea2, ?Eb2; destruct c1, c2; lia. }
    assert (equal_slices left ∧ equal_slices right ∧ Forall equal_slices q)
      as (Hl & Hr & Hrest).
    { unfold q2, Difflib.push_if in Hall.
      destruct c1 eqn:E3, c2 eqn:E4.
      - apply Forall_cons in Hall as [? Hall]. by apply Forall_cons in Hall as [? Hall].
      - apply Forall_cons in Hall as [? Hall].
        split; [done|]. split; [|done]. apply empty_slices; lia.
      - apply Forall_cons in Hall as [? Hall].
        split; [|done]. apply empty_slices; lia.
      - split; [apply empty_slices; lia|]. split; [apply empty_slices; lia|done]. }
    constructor; [|done]. by eapply glue_slices.
Qed.

Lemma turns_cons r q : turns (r :: q) = (2 * len_a r + 1 + turns q)%nat.
Proof. reflexivity. Qed.

Lemma matching_loop_enough_fuel : ∀ fuel q blocks fuel',
  Forall valid q → (turns q ≤ fuel)%nat → (fuel ≤ fuel')%nat →
  Difflib.matching_loop a b fuel' q blocks
  = Difflib.matching_loop a b fuel q blocks.
Proof.
  induction fuel as [|fuel IH]; intros q blocks fuel' Hq Ht Hf.
  { destruct q as [|r q]; [by destruct fuel'|].
    rewrite turns_cons in Ht. lia. }
  destruct fuel' as [|fuel']; [lia|].
  destruct q as [|[[[alo ahi] blo] bhi] q]; [done|].
  apply Forall_cons in Hq as [[Hva Hvb] Hq]. simpl in Hva, Hvb.
  cbn [Difflib.matching_loop].
  pose proof (find_longest_match_inside alo ahi blo bhi Hva Hvb) as Hin.
  destruct (Difflib.find_longest_match a b alo ahi blo bhi) as [[i j] k].
  destruct Hin as [Hb _].
  rewrite turns_cons in Ht. unfold len_a in Ht. cbn [fst snd] in Ht.
  destruct (k =? 0)%nat eqn:Ek.
  - apply IH; [done|lia|lia].
  - apply Nat.eqb_neq in Ek. apply IH; [| |lia].
    + unfold Difflib.push_if.
      destruct (_ && _), (_ && _); repeat constructor; simpl; try done; lia.
    + unfold Difflib.push_if.
      destruct (_ && _), (_ && _);
        rewrite ?turns_cons; unfold len_a; cbn [fst snd]; lia.
Qed.

(** The fuel of [get_matching_blocks] is enough: more changes nothing. *)
Lemma get_matching_blocks_fuel fuel :
  (2 * length a + 1 ≤ fuel)%nat →
  Difflib.matching_loop a b fuel [(0%nat, length a, 0%nat, length b)] []
  = Difflib.get_matching_blocks a b.
Proof.
  intros H. apply matching_loop_enough_fuel; [| |done].
  - repeat constructor; simpl; lia.
  - rewrite turns_cons. unfold len_a, turns. cbn [fst snd sum_list_with]. lia.
Qed.

(** ** [ratio] *)

Lemma matches_bounds :
  (Difflib.matches a b ≤ length a)%nat ∧ (Difflib.matches a b ≤ length b)%nat
  ∧ (Difflib.matches a b = length a → Difflib.matches a b = length b → a = b).
Proof.
  unfold Difflib.matches, Difflib.get_matching_blocks.
  destruct (matching_loop_spec (2 * length a + 1)
              [(0%nat, length a, 0%nat, length b)] []) as (m & Ht & Hma & Hmb & Heq).
  { repeat constructor; simpl; lia. }
  change (total []) with 0%nat in Ht. rewrite Nat.add_0_l in Ht.
  unfold total in Ht. rewrite Ht. clear Ht.
  unfold sum_a, sum_b, len_a, len_b in *. simpl in *.
  split; [lia|]. split; [lia|].
  intros E1 E2. specialize (Heq ltac:(lia) ltac:(lia)).
  apply Forall_cons in Heq as [[Hl Hagree] _].
  unfold equal_slices, len_a, len_b in *. simpl in *.
  apply list_eq. intros t.
  destruct (decide (t < length a)%nat) as [Hlt|Hge].
  - destruct (Hagree t ltac:(lia)) as (x & Hx1 & Hx2). simpl in Hx1, Hx2. congruence.
  - rewrite !lookup_ge_None_2 by lia. done.
Qed.

Lemma ratio_le_1 : (Difflib.ratio a b <= 1)%Q.
Proof.
  unfold Difflib.ratio.
  destruct (length a + length b =? 0)%nat eqn:E; [apply Qle_refl|].
  apply Nat.eqb_neq in E. destruct matches_bounds as (H1 & H2 & _).
  unfold Qle. simpl. lia.
Qed.

Lemma ratio_ge_0 : (0 <= Difflib.ratio a b)%Q.
Proof.
  unfold Difflib.ratio.
  destruct (length a + length b =? 0)%nat eqn:E; [done|].
  unfold Qle. simpl. lia.
Qed.

Lemma ratio_1_eq : (1 <= Difflib.ratio a b)%Q → a = b.
Proof.
  unfold Difflib.ratio.
  destruct (length a + length b =? 0)%nat eqn:E.
  - apply Nat.eqb_eq in E. intros _.
    destruct a, b; simpl in E; try lia. done.
  - apply Nat.eqb_neq in E. destruct matches_bounds as (H1 & H2 & H3).
    unfold Qle. simpl. intros H. apply H3; lia.
Qed.
End SequenceMatcherFacts.

(** ** Frames *)

Lemma loc_elem_of {A} (f : frame A) l r : loc f l = Return r → (l, r) ∈ f.
Proof.
  induction f as [|[l' r'] f IH]; simpl; [done|].
  destruct (decide (l' = l)) as [->|Hne].
  - intros [= ->]. by left.
  - intros H. right. by apply IH.
Qed.

Lemma loc_NoDup {A} (f : frame A) l r :
  NoDup (index f) → (l, r) ∈ f → loc f l = Return r.
Proof.
  induction f as [|[l' r'] f IH]; simpl.
  - by intros _ ?%elem_of_nil.
  - intros [Hnot Hnd]%NoDup_cons [[= -> ->]|Hin]%elem_of_cons.
    + by rewrite decide_True.
    + rewrite decide_False; [by apply IH|].
      intros ->. apply Hnot. unfold index.
      apply list_elem_of_In, in_map_iff. exists (l, r).
      split; [done|]. by apply list_elem_of_In.
Qed.

Lemma loc_index {A} (f : frame A) l : l ∈ index f → ∃ r, loc f l = Return r.
Proof.
  induction f as [|[l' r'] f IH]; simpl.
  - by intros ?%elem_of_nil.
  - destruct (decide (l' = l)) as [->|Hne]; [eauto|].
    intros [?|?]%elem_of_cons; [congruence|by apply IH].
Qed.

(** ** The scan for the most similar station *)

Lemma Qlt_bool_true x y : Qlt_bool x y = true ↔ (x < y)%Q.
Proof.
  unfold Qlt_bool. rewrite negb_true_iff. split.
  - intros H. apply Qnot_le_lt. intros Hle. apply Qle_bool_iff in Hle. congruence.
  - intros H. destruct (Qle_bool y x) eqn:E; [|done].
    apply Qle_bool_iff in E. exfalso. by apply (Qlt_not_le x y).
Qed.

Lemma Qlt_bool_false x y : Qlt_bool x y = false ↔ (y <= x)%Q.
Proof.
  unfold Qlt_bool. rewrite negb_false_iff. apply Qle_bool_iff.
Qed.

Lemma list_ascii_of_string_inj s1 s2 :
  list_ascii_of_string s1 = list_ascii_of_string s2 → s1 = s2.
Proof.
  intros H. rewrite <- (string_of_list_ascii_of_string s1).
  rewrite <- (string_of_list_ascii_of_string s2). by rewrite H.
Qed.

Section Target.
Context (coords : frame station) (target : string).
Local Abbreviation named_target := (named_target coords target).
Hypothesis names : Forall (λ lr, name lr.2 ≠ None) coords.
Hypothesis self :
  (1 <= Difflib.ratio (list_ascii_of_string target) (list_ascii_of_string target))%Q.

Lemma best_match_target : ∀ labels maxsim maxind,
  (∀ j, j ∈ labels → j ∈ index coords) →
  (maxsim <= 1)%Q → ((1 <= maxsim)%Q → named_target maxind) →
  ∃ s i, best_match coords (Some target) labels maxsim maxind = Return (s, i)
         ∧ (maxsim <= s)%Q ∧ (s <= 1)%Q
         ∧ ((1 <= s)%Q → named_target i)
         ∧ ((∃ j, j ∈ labels ∧ named_target j) → (1 <= s)%Q).
Proof.
  induction labels as [|j labels IH]; intros maxsim maxind Hl Hle Ht.
  { exists maxsim, maxind. simpl. split; [done|]. split; [apply Qle_refl|].
    split; [done|]. split; [done|]. by intros (j & ?%elem_of_nil & _). }
  cbn [best_match].
  destruct (loc_index coords j (Hl j ltac:(by left))) as [r Hr]. rewrite Hr.
  simpl.
  pose proof (loc_elem_of _ _ _ Hr) as Hin.
  pose proof (proj1 (Forall_forall _ _) names _ Hin) as Hn. simpl in Hn.
  destruct (name r) as [n|] eqn:En; [clear Hn|done]. simpl.
  set (sim := Difflib.ratio (list_ascii_of_string target) (list_ascii_of_string n)).
  pose proof (ratio_le_1 (list_ascii_of_string target) (list_ascii_of_string n))
    as Hsim. fold sim in Hsim.
  assert ((1 <= sim)%Q → n = target) as Heq.
  { intros H. apply ratio_1_eq in H. by apply list_ascii_of_string_inj in H. }
  assert (named_target j → (1 <= sim)%Q) as Hself.
  { intros (r' & Hr' & Hn'). rewrite Hr in Hr'. injection Hr' as <-.
    rewrite En in Hn'. injection Hn' as ->. exact self. }
  assert (∀ j', j' ∈ labels → j' ∈ index coords) as Hl'.
  { intros j' Hj'. apply Hl. by right. }
  destruct (Qlt_bool maxsim sim) eqn:E.
  - apply Qlt_bool_true in E.
    destruct (IH sim j Hl' Hsim) as (s & i & Hres & H1 & H2 & H3 & H4).
    { intros H. exists r. split; [done|]. rewrite En. f_equal. by apply Heq. }
    exists s, i. split; [done|]. split; [lra|]. split; [done|]. split; [done|].
    intros (j' & [->|Hj']%elem_of_cons & Hj'').
    + apply Hself in Hj''. lra.
    + apply H4. eauto.
  - apply Qlt_bool_false in E.
    destruct (IH maxsim maxind Hl' Hle Ht) as (s & i & Hres & H1 & H2 & H3 & H4).
    exists s, i. split; [done|]. split; [done|]. split; [done|]. split; [done|].
    intros (j' & [->|Hj']%elem_of_cons & Hj'').
    + apply Hself in Hj''. lra.
    + apply H4. eauto.
Qed.
End Target.

Section Matching.
Local Open Scope string_scope.

Lemma match_station_rename coords nm :
  match_station coords nm = matched coords (rename nm).
Proof. reflexivity. Qed.

(** C4: a station name that shares no character with any name of the
    catalog scores 0 against each of them; [maxind] stays -1 and the lookup
    of the row labelled -1 raises [KeyError]. *)
Lemma match_station_no_common_character :
  match_station [(1%Z, de_kooy); (2%Z, de_bilt)] (Some "Urk") = Raise KeyError.
Proof. vm_compute. reflexivity. Qed.

(** C7: with the labels of the catalog distinct and a name in every row,
    a measurement row named "Den Helder" is renamed to "De Kooy" before
    the scan and receives the cells of a catalog row named "De Kooy", the
    row [(l, r)] itself when no other row has that name, whatever the
    similarity of the other rows to "Den Helder". *)
Theorem den_helder_matches_de_kooy (coords : frame station) (l : Z) (r : station) :
  NoDup (index coords) →
  Forall (λ lr, name lr.2 ≠ None) coords →
  (l, r) ∈ coords → name r = Some "De Kooy" →
  rename (Some "Den Helder") = Some "De Kooy"
  ∧ ∃ i s, match_station coords (Some "Den Helder") = Return (i, s)
           ∧ (i, s) ∈ coords ∧ name s = Some "De Kooy"
           ∧ resolved coords (Some "Den Helder") = Return (sid s, lat s, lon s)
           ∧ ((∀ l' r', (l', r') ∈ coords → name r' = Some "De Kooy" → l' = l)
              → (i, s) = (l, r)).
Proof.
  intros Hnd Hnames Hin Hname. split; [reflexivity|].
  assert (named_target coords "De Kooy" l) as Hl.
  { exists r. split; [by apply loc_NoDup|done]. }
  destruct (best_match_target coords "De Kooy" Hnames ltac:(by vm_compute)
              (index coords) 0%Q (-1)%Z) as (s & i & Hres & _ & _ & Ht & Hs).
  { done. } { done. } { intros H. by vm_compute in H. }
  destruct Ht as (r' & Hr' & Hn').
  { apply Hs. exists l. split; [|done]. unfold index.
    apply list_elem_of_In, in_map_iff. exists (l, r).
    split; [done|]. by apply list_elem_of_In. }
  assert (match_station coords (Some "Den Helder") = Return (i, r')) as Hm.
  { rewrite match_station_rename. unfold matched.
    change (rename (Some "Den Helder")) with (Some "De Kooy").
    rewrite Hres. simpl. by rewrite Hr'. }
  exists i, r'. split; [done|].
  pose proof (loc_elem_of _ _ _ Hr') as Hin'.
  split; [done|]. split; [done|].
  split; [unfold resolved; by rewrite Hm|].
  intros Huniq. assert (i = l) as -> by (by eapply Huniq).
  rewrite (loc_NoDup coords l r Hnd Hin) in Hr'. by injection Hr' as <-.
Qed.

Lemma den_helder_matches_de_kooy_witness :
  similarity (Some "Den Helder") (name den_helder) = Return (20 # 20)%Q
  ∧ rename (Some "Den Helder") = Some "De Kooy"
  ∧ ∃ i s, match_station example_coords (Some "Den Helder") = Return (i, s)
           ∧ (i, s) ∈ example_coords ∧ name s = Some "De Kooy"
           ∧ resolved example_coords (Some "Den Helder")
             = Return (sid s, lat s, lon s)
           ∧ ((∀ l' r', (l', r') ∈ example_coords → name r' = Some "De Kooy"
                        → l' = 2%Z)
              → (i, s) = (2%Z, de_kooy)).
Proof.
  split; [reflexivity|].
  apply (den_helder_matches_de_kooy example_coords 2 de_kooy).
  - apply (bool_decide_unpack (NoDup (index example_coords))). reflexivity.
  - repeat constructor; discriminate.
  - right. left.
  - reflexivity.
Defined.

(** C10: a name that is no key of [modify_names] (it differs from each key
    in some character, be it by case, by white space around it or by text
    behind it) and a null name are left as they are, and the scan is run
    with them. *)
Theorem rename_only_exact (nm : option string) :
  Forall (λ on, nm ≠ Some on.1) modify_names →
  rename nm = nm
  ∧ ∀ coords, match_station coords nm = matched coords nm.
Proof.
  intros H.
  assert (rename nm = nm) as E.
  { unfold rename. revert H. generalize modify_names as d.
    induction d as [|[old new] d IH]; intros H; [done|].
    apply Forall_cons in H as [Hne H]. simpl in *.
    rewrite decide_False by done. by apply IH. }
  split; [done|]. intros coords. by rewrite match_station_rename, E.
Qed.

Lemma rename_only_exact_witness :
  rename (Some "den helder") = Some "den helder"
  ∧ ∀ coords, match_station coords (Some "den helder")
              = matched coords (Some "den helder").
Proof.
  apply (rename_only_exact (Some "den helder")).
  repeat constructor; discriminate.
Defined.

(** Names around a key: white space, a longer text, a null cell. *)
Example rename_near_keys :
  rename (Some " Den Helder") = Some " Den Helder"
  ∧ rename (Some "Den Helder Airport") = Some "Den Helder Airport"
  ∧ rename (Some "EELDE") = Some "EELDE"
  ∧ rename None = None
  ∧ rename (Some "Eelde") = Some "Groningen".
Proof. repeat split. Qed.

End Matching.

(** ** Sums of series *)

Section Sums.
Local Open Scope R_scope.

Lemma np_add_assoc u v w : np_add (np_add u v) w = np_add u (np_add v w).
Proof.
  destruct u, v, w; simpl; try done. f_equal. lra.
Qed.

Lemma fold_add_np s : ∀ acc,
  np (fold_left add s acc) = np_add (np acc) (series_sum s).
Proof.
  induction s as [|v s IH]; intros acc; simpl.
  - destruct (np acc); simpl; [f_equal; lra|done].
  - rewrite IH. unfold add at 1. cbn [np].
    change (match np acc with
            | Some x => match v with Some y => Some (x + y) | None => None end
            | None => None
            end) with (np_add (np acc) v).
    apply np_add_assoc.
Qed.

Lemma fold_add_Np s : ∀ u, ∃ w, fold_left add s (Np u) = Np w.
Proof. induction s as [|v s IH]; intros u; simpl; eauto. Qed.

Lemma py_sum_np s : np (py_sum s) = series_sum s.
Proof.
  unfold py_sum. rewrite fold_add_np. simpl.
  destruct (series_sum s); simpl; [f_equal; lra|done].
Qed.

Lemma py_sum_nil : py_sum [] = PyInt 0.
Proof. reflexivity. Qed.

(** The sum of a series that is not empty is a numpy scalar. *)
Lemma py_sum_cons v s : py_sum (v :: s) = Np (series_sum (v :: s)).
Proof.
  pose proof (py_sum_np (v :: s)) as H.
  unfold py_sum in *. cbn [fold_left] in *.
  assert (∃ u, add (PyInt 0) v = Np u) as [u Hu] by (unfold add; eauto).
  rewrite Hu in *. destruct (fold_add_Np s u) as [w Hw].
  rewrite Hw in *. simpl in H. by rewrite H.
Qed.

Lemma py_sum_nonempty s : s ≠ [] → py_sum s = Np (series_sum s).
Proof. destruct s as [|v s]; [done|]. intros _. apply py_sum_cons. Qed.

Lemma series_sum_Some (A : Type) (f : A → R) (l : list A) :
  series_sum (map (λ o, Some (f o)) l) = Some (sumR (map f l)).
Proof. induction l as [|o l IH]; simpl; [done|]. by rewrite IH. Qed.

(** A sum of products with no NaN among the values. *)
Lemma series_sum_products (A : Type) (w : A → R) (c : A → option R) (l : list A) :
  Forall (λ o, c o ≠ None) l →
  series_sum (map (λ o, np_mul (Some (w o)) (c o)) l)
  = Some (sumR (map (λ o, w o * default 0 (c o)) l)).
Proof.
  induction 1 as [|o l Ho Hl IH]; [done|]. cbn [map series_sum].
  rewrite IH. by destruct (c o).
Qed.

(** A NaN among the values makes the sum of the products NaN, whatever
    its weight. *)
Lemma series_sum_NaN (A : Type) (w : A → R) (c : A → option R) (l : list A) :
  series_sum (map (λ o, np_mul (Some (w o)) (c o)) l) = None
  ↔ Exists (λ o, c o = None) l.
Proof.
  induction l as [|o l IH]; cbn [map series_sum].
  - split; [done|]. by intros ?%Exists_nil.
  - rewrite Exists_cons, <- IH.
    destruct (c o) as [v|]; simpl.
    + destruct (series_sum _); simpl;
        (split; [intros ?; try done; by right|intros [?|?]; done]).
    + split; [by left|done].
Qed.

Lemma sumR_nonneg (A : Type) (f : A → R) (l : list A) :
  Forall (λ o, 0 <= f o) l → 0 <= sumR (map f l).
Proof. induction 1; simpl; lra. Qed.

Lemma sumR_pos (A : Type) (f : A → R) (l : list A) :
  Forall (λ o, 0 <= f o) l → Exists (λ o, 0 < f o) l → 0 < sumR (map f l).
Proof.
  intros Hall Hex. induction Hall as [|o l Ho Hl IH]; simpl.
  - by apply Exists_nil in Hex.
  - pose proof (sumR_nonneg _ f l Hl).
    apply Exists_cons in Hex as [?|?]; [lra|]. specialize (IH ltac:(done)). lra.
Qed.

Lemma sumR_zero (A : Type) (f : A → R) (l : list A) :
  Forall (λ o, 0 <= f o) l → sumR (map f l) = 0 → Forall (λ o, f o = 0) l.
Proof.
  induction 1 as [|o l Ho Hl IH]; simpl; [constructor|].
  intros H. pose proof (sumR_nonneg _ f l Hl).
  constructor; [lra|]. apply IH. lra.
Qed.
End Sums.

(** ** Distances and weights *)

Section Weights.
Local Open Scope R_scope.

Lemma point_distance_nonneg p q : 0 <= point_distance p q.
Proof. apply sqrt_pos. Qed.

Lemma point_distance_0 p q : point_distance p q = 0 ↔ p = q.
Proof.
  unfold point_distance. destruct p as [px py], q as [qx qy]. simpl. split.
  - intros H. apply sqrt_eq_0 in H.
    2:{ pose proof (Rle_0_sqr (px - qx)). pose proof (Rle_0_sqr (py - qy)).
        unfold Rsqr in *. lra. }
    destruct (Rplus_sqr_eq_0 (px - qx) (py - qy) H) as [H1 H2].
    f_equal; lra.
  - intros [= -> ->]. replace ((qx - qx) * (qx - qx) + (qy - qy) * (qy - qy))
      with 0 by lra. apply sqrt_0.
Qed.

Context (data : list observation) (x y p : R).
Local Abbreviation coincident := (coincident x y).
Local Abbreviation weight := (weight data x y p).
Local Abbreviation used := (used data x y).
Local Abbreviation indicator := (indicator x y).

Lemma eq0_indicator o :
  eq0 (point_distance (x, y) (coords o)) = Some (indicator o).
Proof.
  unfold eq0, indicator, decide, coincident_dec, R_eq_dec.
  by destruct (Req_dec_T _ _).
Qed.

Lemma indicator_sum_zero :
  sumR (map indicator data) = 0 ↔ ¬ Exists coincident data.
Proof.
  split.
  - intros H. apply sumR_zero in H.
    + intros (o & Ho & Hc)%Exists_exists.
      apply (proj1 (Forall_forall _ _) H) in Ho.
      unfold indicator in Ho. rewrite decide_True in Ho by done. lra.
    + apply Forall_forall. intros o _. unfold indicator.
      destruct (decide _); lra.
  - intros H. induction data as [|o l IH]; simpl; [done|].
    rewrite IH by (intros ?; apply H; by right).
    unfold indicator. rewrite decide_False; [lra|].
    intros ?. apply H. by left.
Qed.

Lemma is_zero_indicators :
  is_zero (py_sum (map eq0 (distance (x, y) data)))
  = bool_decide (¬ Exists coincident data).
Proof.
  unfold is_zero. rewrite py_sum_np. unfold distance. rewrite map_map.
  rewrite (map_ext _ (λ o, Some (indicator o))) by apply eq0_indicator.
  rewrite series_sum_Some.
  destruct (Req_dec_T _ 0) as [E|E].
  - symmetry. apply bool_decide_eq_true. by apply indicator_sum_zero.
  - symmetry. apply bool_decide_eq_false. intros H. by apply indicator_sum_zero in H.
Qed.

Lemma zip_with_map {A B C D} (f : B → C → D) (g : A → B) (h : A → C) (l : list A) :
  zip_with f (map g l) (map h l) = map (λ o, f (g o) (h o)) l.
Proof. induction l as [|o l IH]; simpl; [done|]. by rewrite IH. Qed.

(** [idw] in terms of the weights. *)
Lemma idw_weights col :
  idw data x y p col
  = truediv (py_sum (map (λ o, np_mul (Some (weight o)) (cell o col)) data))
            (py_sum (map (λ o, Some (weight o)) data)).
Proof.
  unfold idw. rewrite is_zero_indicators. unfold weight.
  destruct (decide (Exists coincident data)) as [Hex|Hno].
  - rewrite bool_decide_eq_false_2 by tauto.
    unfold distance. rewrite map_map.
    rewrite (map_ext _ (λ o, Some (indicator o))) by apply eq0_indicator.
    by rewrite zip_with_map.
  - rewrite bool_decide_eq_true_2 by done.
    unfold distance. rewrite map_map. unfold inverse_power.
    by rewrite zip_with_map.
Qed.

Lemma weight_nonneg o : 0 <= weight o.
Proof.
  unfold weight. destruct (decide _); [destruct (decide _); lra|].
  apply Rlt_le, Rdiv_lt_0_compat; [lra|]. unfold Rpower. apply exp_pos.
Qed.

Lemma weight_used o : o ∈ data → 0 < weight o → o ∈ used.
Proof.
  unfold weight, used. intros Ho. destruct (decide (Exists _ _)); [|done].
  destruct (decide (coincident o)) as [Hc|Hc]; [|lra].
  intros _. by apply list_elem_of_filter.
Qed.

Lemma used_weight o : o ∈ used → o ∈ data ∧ 0 < weight o.
Proof.
  unfold weight, used. destruct (decide (Exists _ _)).
  - intros [Hc Ho]%list_elem_of_filter. split; [done|].
    rewrite decide_True by done. lra.
  - intros Ho. split; [done|].
    apply Rdiv_lt_0_compat; [lra|]. unfold Rpower. apply exp_pos.
Qed.

Lemma weight_sum_pos : data ≠ [] → 0 < sumR (map weight data).
Proof.
  intros Hne. apply sumR_pos.
  - apply Forall_forall. intros o _. apply weight_nonneg.
  - unfold weight. destruct (decide (Exists coincident data)) as [Hex|Hno].
    + apply Exists_exists in Hex as (o & Ho & Hc). apply Exists_exists.
      exists o. split; [done|]. rewrite decide_True by done. lra.
    + destruct data as [|o l]; [done|]. left.
      apply Rdiv_lt_0_compat; [lra|]. unfold Rpower. apply exp_pos.
Qed.

(** The result of [idw] on a frame that is not empty: the quotient of the
    two sums, NaN when the sum of the products is. *)
Lemma idw_nonempty col :
  data ≠ [] →
  idw data x y p col
  = Return (match series_sum (map (λ o, np_mul (Some (weight o)) (cell o col)) data) with
            | Some n => Some (n / sumR (map weight data))
            | None => None
            end).
Proof.
  intros Hne. rewrite idw_weights. pose proof (weight_sum_pos Hne) as Hpos.
  rewrite !py_sum_nonempty by (by destruct data).
  unfold truediv. cbn [np]. rewrite series_sum_Some.
  destruct (series_sum _) as [n|]; [|done].
  destruct (Req_dec_T _ 0) as [E|E]; [|done].
  rewrite E in Hpos. lra.
Qed.

Lemma idw_empty col : data = [] → idw data x y p col = Raise ZeroDivisionError.
Proof. intros E. rewrite idw_weights, E. reflexivity. Qed.
End Weights.

(** ** The estimate *)

Section Estimate.
Local Open Scope R_scope.

Lemma sumR_cons (A : Type) (f : A → R) (o : A) (l : list A) :
  sumR (map f (o :: l)) = f o + sumR (map f l).
Proof. reflexivity. Qed.

Lemma sumR_app (A : Type) (f : A → R) (l1 l2 : list A) :
  sumR (map f (l1 ++ l2)) = sumR (map f l1) + sumR (map f l2).
Proof. induction l1 as [|o l1 IH]; simpl; [lra|]. rewrite IH. lra. Qed.

Lemma sumR_all_zero (A : Type) (f : A → R) (l : list A) :
  Forall (λ o, f o = 0) l → sumR (map f l) = 0.
Proof. induction 1 as [|o l Ho Hl IH]; simpl; [done|]. rewrite Ho, IH. lra. Qed.

Lemma sumR_le (A : Type) (f g : A → R) (l : list A) :
  Forall (λ o, f o <= g o) l → sumR (map f l) <= sumR (map g l).
Proof. induction 1; simpl; lra. Qed.

Lemma sumR_scale (A : Type) (f : A → R) (c : R) (l : list A) :
  sumR (map (λ o, f o * c) l) = sumR (map f l) * c.
Proof. induction l as [|o l IH]; simpl; [lra|]. rewrite IH. lra. Qed.

Lemma quotient_between m M n w :
  0 < w → m * w <= n → n <= M * w → m <= n / w <= M.
Proof.
  intros Hw H1 H2. split.
  - apply Rmult_le_reg_r with w; [done|].
    unfold Rdiv. rewrite Rmult_assoc, Rinv_l by lra. lra.
  - apply Rmult_le_reg_r with w; [done|].
    unfold Rdiv. rewrite Rmult_assoc, Rinv_l by lra. lra.
Qed.

(** One observation of weight 1 among observations of weight 0. *)
Lemma average_single (w : observation → R) (c : observation → option R)
    (l1 l2 : list observation) (o : observation) (v : R) :
  w o = 1 → Forall (λ o', w o' = 0) (l1 ++ l2) → c o = Some v →
  sumR (map (λ o', w o' * default 0 (c o')) (l1 ++ o :: l2))
  / sumR (map w (l1 ++ o :: l2)) = v.
Proof.
  intros Hwo [Hw1 Hw2]%Forall_app Ev.
  rewrite !sumR_app, !sumR_cons.
  rewrite (sumR_all_zero _ _ l1 Hw1), (sumR_all_zero _ _ l2 Hw2).
  rewrite (sumR_all_zero _ (λ o', w o' * default 0 (c o')) l1),
          (sumR_all_zero _ (λ o', w o' * default 0 (c o')) l2).
  - rewrite Hwo, Ev. simpl. lra.
  - eapply Forall_impl; [exact Hw2|]. intros o' ->. lra.
  - eapply Forall_impl; [exact Hw1|]. intros o' ->. lra.
Qed.

Lemma idw_no_null data x y p col :
  data ≠ [] → Forall (λ o, cell o col ≠ None) data →
  idw data x y p col = Return (Some (weighted_average data x y p col)).
Proof.
  intros Hne Hall. rewrite idw_nonempty by done.
  by rewrite series_sum_products.
Qed.

Lemma idw_null data x y p col :
  data ≠ [] →
  (idw data x y p col = Return None ↔ Exists (λ o, cell o col = None) data).
Proof.
  intros Hne. rewrite idw_nonempty by done.
  rewrite <- (series_sum_NaN _ (weight data x y p)).
  destruct (series_sum _); split; intros H; done.
Qed.
End Estimate.

Section Interpolation.
Local Open Scope R_scope.

(** C1, as stated, fails: with the query point on station B alone and the
    temperature of station A null, the estimate is NaN and not the 10
    degrees of station B; the zero weight of station A does not remove its
    NaN from the sum. *)
Lemma idw_at_station_counterexample :
  coincident 1 2 station_b ∧ ¬ coincident 1 2 station_a
  ∧ cell station_b temp = Some 10
  ∧ idw [station_a; station_b] 1 2 2 temp = Return None.
Proof.
  split; [by apply point_distance_0|].
  split; [intros H; apply point_distance_0 in H; injection H; lra|].
  split; [done|].
  apply idw_null; [done|]. by left.
Qed.

(** C1, amended: when the query point lies on exactly one station and no
    other station has a null value in the column, [idw] returns the cell of
    that station, whatever [p]. *)
Theorem idw_at_station (l1 l2 : list observation) (o : observation)
    (x y p : R) (col : column) :
  coincident x y o →
  Forall (λ o', ¬ coincident x y o') (l1 ++ l2) →
  Forall (λ o', cell o' col ≠ None) (l1 ++ l2) →
  idw (l1 ++ o :: l2) x y p col = Return (cell o col).
Proof.
  intros Ho Hothers Hvals.
  set (data := l1 ++ o :: l2).
  assert (data ≠ []) as Hne by (unfold data; by destruct l1).
  assert (Exists (coincident x y) data) as Hex.
  { apply Exists_app. right. by left. }
  destruct (cell o col) as [v|] eqn:Ev.
  2:{ apply idw_null; [done|]. apply Exists_app. right. by left. }
  rewrite idw_no_null; [|done|].
  2:{ apply Forall_app in Hvals as [H1 H2]. apply Forall_app. split; [done|].
      constructor; [congruence|done]. }
  assert (weight data x y p o = 1) as Hwo.
  { unfold weight. by rewrite !decide_True. }
  assert (Forall (λ o', weight data x y p o' = 0) (l1 ++ l2)) as Hw0.
  { eapply Forall_impl; [exact Hothers|]. intros o' Hn. unfold weight.
    rewrite decide_True by done. by rewrite decide_False. }
  unfold weighted_average. do 2 f_equal. by apply average_single.
Qed.

Lemma idw_at_station_witness :
  idw ([station_c] ++ station_b :: []) 1 2 (9 / 2) temp = Return (Some 10).
Proof.
  apply (idw_at_station [station_c] [] station_b 1 2 (9 / 2) temp).
  - by apply point_distance_0.
  - repeat constructor. intros H. apply point_distance_0 in H. injection H. lra.
  - repeat constructor. discriminate.
Defined.








(** Two stations at the same distance from the query point, [p = 1]: the
    estimate is the mean of their values. *)
Example idw_equidistant_mean :
  idw [station_west; station_east] 0 0 1 temp = Return (Some 10).
Proof.
  rewrite idw_no_null; [|discriminate|repeat constructor; discriminate].
  assert (point_distance (0, 0) (coords station_west) = 1) as Dw.
  { unfold point_distance. simpl.
    replace ((0 - -1) * (0 - -1) + (0 - 0) * (0 - 0)) with 1 by lra. apply sqrt_1. }
  assert (point_distance (0, 0) (coords station_east) = 1) as De.
  { unfold point_distance. simpl.
    replace ((0 - 1) * (0 - 1) + (0 - 0) * (0 - 0)) with 1 by lra. apply sqrt_1. }
  assert (¬ Exists (coincident 0 0) [station_west; station_east]) as Hno.
  { intros [H|[H|H%Exists_nil]%Exists_cons]%Exists_cons; [| |done];
      unfold coincident in H; rewrite ?Dw, ?De in H; lra. }
  assert (∀ o, point_distance (0, 0) (coords o) = 1 →
               weight [station_west; station_east] 0 0 1 o = 1) as Hw.
  { intros o Ho. unfold weight. rewrite decide_False by done.
    rewrite Ho, Rpower_1 by lra. lra. }
  unfold weighted_average. rewrite !sumR_cons.
  rewrite (Hw _ Dw), (Hw _ De). simpl. do 2 f_equal. lra.
Qed.

End Interpolation.

(** ** [linspace] *)

Lemma map_fmap {A B} (f : A → B) (l : list A) : map f l = f <$> l.
Proof. reflexivity. Qed.

Section Linspace.
Local Open Scope R_scope.
Context (start stop : R) (num : nat).

Lemma linspace_length : length (linspace start stop num) = num.
Proof.
  unfold linspace. destruct (1 <? num)%nat.
  - by rewrite length_insert, length_map, length_seq.
  - by rewrite length_map, length_seq.
Qed.

(** From two points on, the points are evenly spaced from [start] to
    [stop], both included. *)
Lemma linspace_lookup (j : nat) :
  (2 ≤ num)%nat → (j < num)%nat →
  linspace start stop num !! j
  = Some (start + INR j * ((stop - start) / INR (num - 1))).
Proof.
  intros Hn Hj. unfold linspace.
  assert ((1 <? num)%nat = true) as -> by (apply Nat.ltb_lt; lia).
  assert ((0 <? num - 1)%nat = true) as -> by (apply Nat.ltb_lt; lia).
  assert (INR (num - 1) ≠ 0) as Hne by (apply not_0_INR; lia).
  destruct (decide (j = num - 1)%nat) as [->|Hj'].
  - rewrite list_lookup_insert_eq by (rewrite length_map, length_seq; lia).
    f_equal. field. done.
  - rewrite list_lookup_insert_ne by done.
    rewrite map_fmap, list_lookup_fmap, lookup_seq_lt by done.
    simpl. f_equal. lra.
Qed.

Lemma linspace_first : (2 ≤ num)%nat → linspace start stop num !! 0%nat = Some start.
Proof.
  intros Hn. rewrite linspace_lookup by lia. f_equal. simpl. lra.
Qed.

Lemma linspace_last :
  (2 ≤ num)%nat → linspace start stop num !! (num - 1)%nat = Some stop.
Proof.
  intros Hn. rewrite linspace_lookup by lia. f_equal.
  assert (INR (num - 1) ≠ 0) as Hne by (apply not_0_INR; lia).
  field. done.
Qed.
End Linspace.

(** ** The loops that fill the matrix *)

Lemma mapM_cons {A B} (f : A → py B) (x : A) (l : list A) :
  mapM f (x :: l) = y ← f x; k ← mapM f l; Return (y :: k).
Proof. reflexivity. Qed.

Lemma mapM_return {A B} (f : A → py B) (l : list A) :
  Forall (λ x, ∃ v, f x = Return v) l →
  ∃ k, mapM f l = Return k ∧ Forall2 (λ x v, f x = Return v) l k.
Proof.
  induction 1 as [|x l [v Hv] Hl (k & Hk & Hall)].
  - exists []. split; [done|constructor].
  - exists (v :: k). rewrite mapM_cons, Hv, Hk.
    split; [done|by constructor].
Qed.

Lemma mapM_Forall2 {A B} (f : A → py B) (l : list A) (k : list B) :
  mapM f l = Return k ↔ Forall2 (λ x v, f x = Return v) l k.
Proof.
  revert k. induction l as [|x l IH]; intros k.
  - split; [intros [= <-]; constructor|by intros ->%Forall2_nil_inv_l].
  - rewrite mapM_cons. split.
    + destruct (f x) as [e|v] eqn:Ev; [done|]. cbn [mbind py_bind].
      destruct (mapM f l) as [e|k'] eqn:Ek; [done|]. cbn [mbind py_bind].
      intros [= <-]. constructor; [done|]. by apply IH.
    + intros (v & k' & Hv & Hk & ->)%Forall2_cons_inv_l.
      apply IH in Hk. by rewrite Hv, Hk.
Qed.

Lemma mapM_Raise {A B} (f : A → py B) (l : list A) (e : exn) :
  mapM f l = Raise e
  ↔ ∃ pre x post, l = pre ++ x :: post
      ∧ Forall (λ x', ∃ v, f x' = Return v) pre ∧ f x = Raise e.
Proof.
  induction l as [|x l IH].
  - split; [done|]. by intros ([|??] & ? & ? & ? & _).
  - rewrite mapM_cons. destruct (f x) as [e'|v] eqn:Ev; cbn [mbind py_bind].
    + split.
      * intros [= ->]. exists [], x, l. by repeat split.
      * intros (pre & x'' & post & Heq & Hpre & Hx).
        destruct pre as [|x' pre]; simpl in Heq; simplify_eq; [congruence|].
        apply Forall_cons in Hpre as [[v Hv] _]. congruence.
    + assert ((∃ pre x' post, x :: l = pre ++ x' :: post
                 ∧ Forall (λ x', ∃ v, f x' = Return v) pre ∧ f x' = Raise e)
              ↔ mapM f l = Raise e) as ->.
      { rewrite IH. split.
        - intros (pre & x'' & post & Heq & Hpre & Hx).
          destruct pre as [|x' pre]; simpl in Heq; simplify_eq; [congruence|].
          apply Forall_cons in Hpre as [_ Hpre]. by exists pre, x'', post.
        - intros (pre & x'' & post & -> & Hpre & Hx).
          exists (x :: pre), x'', post. split; [done|]. split; [|done].
          constructor; eauto. }
      destruct (mapM f l) as [e'|k]; cbn [mbind py_bind]; split; congruence.
Qed.

(** The two loops return exactly when every call of the imputation
    function returns, and the matrix then holds the results: a row for each
    [y], a cell for each [x]. *)
Lemma fill_Forall2 (f : R → R → py (option R)) (x y : list R)
    (z : list (list (option R))) :
  fill f x y = Return z
  ↔ Forall2 (λ yi row, Forall2 (λ xj v, f xj yi = Return v) x row) y z.
Proof.
  unfold fill. rewrite mapM_Forall2.
  split; intros H; (eapply Forall2_impl; [exact H|]); intros yi row;
    apply mapM_Forall2.
Qed.

Lemma mapM_returns {A B} (f : A → py B) (l : list A) :
  (∃ k, mapM f l = Return k) ↔ Forall (λ x, ∃ v, f x = Return v) l.
Proof.
  split.
  - intros [k Hk%mapM_Forall2]. induction Hk; constructor; eauto.
  - intros H. destruct (mapM_return f l H) as (k & Hk & _). eauto.
Qed.

(** The loops raise the error of the first call that raises, in the order
    of the calls: [y] outer, [x] inner. *)
Lemma fill_Raise (f : R → R → py (option R)) (x y : list R) (e : exn) :
  fill f x y = Raise e
  ↔ ∃ ypre yi ypost xpre xj xpost,
      y = ypre ++ yi :: ypost ∧ x = xpre ++ xj :: xpost
      ∧ Forall (λ yi', Forall (λ xj', ∃ v, f xj' yi' = Return v) x) ypre
      ∧ Forall (λ xj', ∃ v, f xj' yi = Return v) xpre
      ∧ f xj yi = Raise e.
Proof.
  unfold fill. rewrite mapM_Raise. split.
  - intros (ypre & yi & ypost & -> & Hpre & Hrow).
    apply mapM_Raise in Hrow as (xpre & xj & xpost & -> & Hxpre & He).
    exists ypre, yi, ypost, xpre, xj, xpost. split; [done|]. split; [done|].
    split; [|done]. eapply Forall_impl; [exact Hpre|].
    intros yi' H. by apply mapM_returns in H.
  - intros (ypre & yi & ypost & xpre & xj & xpost & -> & -> & Hpre & Hxpre & He).
    exists ypre, yi, ypost. split; [done|]. split.
    + eapply Forall_impl; [exact Hpre|]. intros yi' H.
      by apply (mapM_returns (λ xj', f xj' yi')).
    + apply mapM_Raise. by exists xpre, xj, xpost.
Qed.

Section Contour.
Local Open Scope R_scope.

(** C5: for every box, every resolution [n] from 2 on and every
    imputation function, the sampler builds [n] x-coordinates and [n]
    y-coordinates, evenly spaced from one end of the box to the other, both
    ends included, and calls the function for each pair, [y] outer and [x]
    inner.  It returns a matrix exactly when every call returns: the matrix
    then has [n] rows of [n] cells with
    [z[i][j] = impute_f(x[j], y[i])]; otherwise it raises the error of the
    first call that raises.  [contour] is this sampler at [n = 100] with
    [idw] for the imputation function. *)
Theorem contour_grid (n : nat) (impute_f : R → R → py (option R))
    (minx maxx miny maxy : R) :
  (2 ≤ n)%nat →
  length (linspace minx maxx n) = n
  ∧ length (linspace miny maxy n) = n
  ∧ (∀ j, (j < n)%nat →
       linspace minx maxx n !! j
       = Some (minx + INR j * ((maxx - minx) / INR (n - 1))))
  ∧ (∀ i, (i < n)%nat →
       linspace miny maxy n !! i
       = Some (miny + INR i * ((maxy - miny) / INR (n - 1))))
  ∧ linspace minx maxx n !! 0%nat = Some minx
  ∧ linspace minx maxx n !! (n - 1)%nat = Some maxx
  ∧ linspace miny maxy n !! 0%nat = Some miny
  ∧ linspace miny maxy n !! (n - 1)%nat = Some maxy
  ∧ (∀ z, fill impute_f (linspace minx maxx n) (linspace miny maxy n) = Return z
          ↔ Forall2 (λ yi row,
                       Forall2 (λ xj v, impute_f xj yi = Return v)
                               (linspace minx maxx n) row)
                    (linspace miny maxy n) z)
  ∧ (∀ z, fill impute_f (linspace minx maxx n) (linspace miny maxy n) = Return z →
          length z = n
          ∧ ∀ i j yi xj,
              linspace miny maxy n !! i = Some yi →
              linspace minx maxx n !! j = Some xj →
              ∃ row v, z !! i = Some row ∧ length row = n
                       ∧ row !! j = Some v ∧ impute_f xj yi = Return v)
  ∧ (∀ e, fill impute_f (linspace minx maxx n) (linspace miny maxy n) = Raise e
          ↔ ∃ ypre yi ypost xpre xj xpost,
              linspace miny maxy n = ypre ++ yi :: ypost
              ∧ linspace minx maxx n = xpre ++ xj :: xpost
              ∧ Forall (λ yi', Forall (λ xj', ∃ v, impute_f xj' yi' = Return v)
                                      (linspace minx maxx n)) ypre
              ∧ Forall (λ xj', ∃ v, impute_f xj' yi = Return v) xpre
              ∧ impute_f xj yi = Raise e)
  ∧ resolution = 100%nat
  ∧ contour_x minx maxx = linspace minx maxx resolution
  ∧ contour_y miny maxy = linspace miny maxy resolution
  ∧ ∀ data p col,
      contour_z data p col minx maxx miny maxy
      = fill (λ xj yi, idw data xj yi p col)
             (linspace minx maxx resolution) (linspace miny maxy resolution).
Proof.
  intros Hn.
  split; [apply linspace_length|]. split; [apply linspace_length|].
  split; [intros j Hj; by apply linspace_lookup|].
  split; [intros i Hi; by apply linspace_lookup|].
  split; [by apply linspace_first|]. split; [by apply linspace_last|].
  split; [by apply linspace_first|]. split; [by apply linspace_last|].
  split; [intros z; apply fill_Forall2|].
  split; [|split; [intros e; apply fill_Raise|done]].
  intros z Hall%fill_Forall2.
  split; [rewrite <- (Forall2_length _ _ _ Hall); apply linspace_length|].
  intros i j yi xj Hyi Hxj.
  destruct (Forall2_lookup_l _ _ _ _ _ Hall Hyi) as (row & Hrow & Hcells).
  destruct (Forall2_lookup_l _ _ _ _ _ Hcells Hxj) as (v & Hv & Hcall).
  exists row, v. split; [done|].
  split; [rewrite <- (Forall2_length _ _ _ Hcells); apply linspace_length|done].
Qed.

Lemma contour_grid_witness :
  length (linspace 3 7 100) = 100%nat
  ∧ length (linspace 50 54 100) = 100%nat
  ∧ (∀ j, (j < 100)%nat →
       linspace 3 7 100 !! j = Some (3 + INR j * ((7 - 3) / INR (100 - 1))))
  ∧ (∀ i, (i < 100)%nat →
       linspace 50 54 100 !! i = Some (50 + INR i * ((54 - 50) / INR (100 - 1))))
  ∧ linspace 3 7 100 !! 0%nat = Some 3
  ∧ linspace 3 7 100 !! (100 - 1)%nat = Some 7
  ∧ linspace 50 54 100 !! 0%nat = Some 50
  ∧ linspace 50 54 100 !! (100 - 1)%nat = Some 54
  ∧ (∀ z, fill (λ xj yi, idw [station_c; station_d] xj yi (9 / 2) temp)
               (linspace 3 7 100) (linspace 50 54 100) = Return z
          ↔ Forall2 (λ yi row,
                       Forall2 (λ xj v, idw [station_c; station_d] xj yi (9 / 2) temp
                                        = Return v)
                               (linspace 3 7 100) row)
                    (linspace 50 54 100) z)
  ∧ (∀ z, fill (λ xj yi, idw [station_c; station_d] xj yi (9 / 2) temp)
               (linspace 3 7 100) (linspace 50 54 100) = Return z →
          length z = 100%nat
          ∧ ∀ i j yi xj,
              linspace 50 54 100 !! i = Some yi →
              linspace 3 7 100 !! j = Some xj →
              ∃ row v, z !! i = Some row ∧ length row = 100%nat
                       ∧ row !! j = Some v
                       ∧ idw [station_c; station_d] xj yi (9 / 2) temp = Return v)
  ∧ (∀ e, fill (λ xj yi, idw [station_c; station_d] xj yi (9 / 2) temp)
               (linspace 3 7 100) (linspace 50 54 100) = Raise e
          ↔ ∃ ypre yi ypost xpre xj xpost,
              linspace 50 54 100 = ypre ++ yi :: ypost
              ∧ linspace 3 7 100 = xpre ++ xj :: xpost
              ∧ Forall (λ yi', Forall (λ xj', ∃ v,
                                  idw [station_c; station_d] xj' yi' (9 / 2) temp
                                  = Return v)
                                      (linspace 3 7 100)) ypre
              ∧ Forall (λ xj', ∃ v, idw [station_c; station_d] xj' yi (9 / 2) temp
                                    = Return v) xpre
              ∧ idw [station_c; station_d] xj yi (9 / 2) temp = Raise e)
  ∧ resolution = 100%nat
  ∧ contour_x 3 7 = linspace 3 7 resolution
  ∧ contour_y 50 54 = linspace 50 54 resolution
  ∧ ∀ data p col,
      contour_z data p col 3 7 50 54
      = fill (λ xj yi, idw data xj yi p col)
             (linspace 3 7 resolution) (linspace 50 54 resolution).
Proof.
  apply (contour_grid 100 (λ xj yi, idw [station_c; station_d] xj yi (9 / 2) temp)
           3 7 50 54).
  lia.
Defined.

End Contour.

(** * Further properties of the program *)

(** ** How many values [degmin_to_decdeg] returns, and how large *)

Lemma star_count cls p : ∀ s caps n,
  Re.match_here (Re.Star cls :: p) s = Some (caps, n) →
  ∃ t k, Re.match_here p t = Some (caps, k) ∧ (k ≤ n)%nat.
Proof.
  induction s as [|c s IH]; intros caps n H.
  - simpl in H. eauto.
  - destruct (cls c) eqn:Hc.
    + rewrite star_step in H by done.
      destruct (Re.match_here (Re.Star cls :: p) s) as [[caps' n']|] eqn:E; [|eauto].
      injection H as <- <-. destruct (IH caps' n' eq_refl) as (t & k & Ht & Hk).
      exists t, k. split; [done|lia].
    + rewrite star_stops in H by done. eauto.
Qed.

Lemma one_count cap cls p s caps n :
  Re.match_here (Re.One cap cls :: p) s = Some (caps, n) →
  ∃ caps' t k, Re.match_here p t = Some (caps', k) ∧ n = S k.
Proof.
  destruct s as [|c s]; simpl; [done|].
  destruct (cls c); [|done].
  destruct (Re.match_here p s) as [[caps' n']|] eqn:E; [|done].
  intros [= _ <-]. eauto.
Qed.

(** A match of the pattern takes four characters at least. *)
Lemma degmin_match_four s caps n :
  Re.match_here degmin_pattern s = Some (caps, n) → (4 ≤ n)%nat.
Proof.
  unfold degmin_pattern. intros H.
  apply star_count in H as (t1 & k1 & H & L1).
  apply one_count in H as (c1 & t2 & k2 & H & ->).
  apply one_count in H as (c2 & t3 & k3 & H & ->).
  apply star_count in H as (t4 & k4 & H & L4).
  apply one_count in H as (c3 & t5 & k5 & H & ->).
  apply one_count in H as (c4 & t6 & k6 & H & ->).
  lia.
Qed.

Lemma findall_from_count : ∀ s skip,
  (4 * length (Re.findall_from degmin_pattern skip s) ≤ length s - skip)%nat.
Proof.
  induction s as [|c s IH]; intros skip; [simpl; lia|].
  cbn [Re.findall_from]. destruct skip as [|k].
  - destruct (Re.match_here degmin_pattern (c :: s)) as [[caps n]|] eqn:E.
    + pose proof (degmin_match_four _ _ _ E) as H4.
      pose proof (match_here_length _ _ _ _ E) as Hl.
      specialize (IH (Nat.pred n)). cbn [length] in *. lia.
    + specialize (IH 0%nat). cbn [length]. lia.
  - specialize (IH k). cbn [length]. lia.
Qed.

Lemma length_list_ascii_of_string s :
  length (list_ascii_of_string s) = String.length s.
Proof. induction s as [|c s IH]; simpl; [done|]. by rewrite IH. Qed.

(** X1: whatever the text, [degmin_to_decdeg] returns at most one value
    for every four characters of it, and every value lies between 0 and
    99 + 99/60. *)
Theorem degmin_to_decdeg_bounds (s : string) :
  (4 * length (degmin_to_decdeg s) ≤ String.length s)%nat
  ∧ Forall (λ d, (0 <= d <= 6039 # 60)%Q) (degmin_to_decdeg s).
Proof.
  split.
  - unfold degmin_to_decdeg, Re.findall. rewrite length_map.
    pose proof (findall_from_count (list_ascii_of_string s) 0) as H.
    rewrite length_list_ascii_of_string in H. lia.
  - apply degmin_to_decdeg_range.
Qed.

(** ** When [coordtable] returns, and what *)

Lemma convert_rows_Forall2 f : ∀ f',
  convert_rows f = Return f'
  ↔ Forall2 (λ lr ls, lr.1 = ls.1 ∧ convert lr.2 = Return ls.2) f f'.
Proof.
  induction f as [|[i r] f IH]; intros f'; simpl.
  - split.
    + intros [= <-]. constructor.
    + intros H. by inversion H.
  - destruct (convert r) as [e|s] eqn:Er; simpl.
    { split; [done|]. intros H. inversion H as [|? [l s'] ? ? [_ Hc]]; subst.
      simpl in Hc. congruence. }
    destruct (convert_rows f) as [e|f''] eqn:Ef; simpl.
    { split; [done|]. intros H. inversion H as [|? [l s'] ? f2 _ H2]; subst.
      apply (IH f2) in H2. done. }
    split.
    + intros [= <-]. constructor; [done|]. by apply IH.
    + intros H. inversion H as [|? [l s'] ? f2 [H1 Hc] H2]; subst.
      simpl in *. subst. apply (IH f2) in H2. congruence.
Qed.

Lemma Forall2_relabel {A B} (P : A → B → Prop) (l : list A) (f : frame B) :
  Forall2 (λ lr ls, lr.1 = ls.1 ∧ P lr.2 ls.2) (relabel l) f
  ↔ ∃ k, Forall2 P l k ∧ f = relabel k.
Proof.
  unfold relabel. generalize S as g. revert f.
  induction l as [|x l IH]; intros f g.
  - split.
    + intros H. inversion H. exists []. split; [constructor|done].
    + intros (k & Hk & ->). inversion Hk. constructor.
  - split.
    + intros H. inversion H as [|? [i y] ? f2 [H1 H2] H3]; subst. simpl in *.
      apply (IH f2 (g ∘ S)) in H3 as (k & Hk & ->).
      exists (y :: k). split; [by constructor|]. simpl. by rewrite <- H1.
    + intros (k & Hk & ->). inversion Hk as [|? y ? k2 H1 H2]; subst.
      simpl. constructor; [done|]. apply (IH _ (g ∘ S)). eauto.
Qed.

(** X2: [coordtable] returns a frame exactly when the page has a six-cell
    row (the column names) and the latitude and the longitude of every
    six-cell row after it parse; the frame then holds these rows, each
    converted, in the order of the page and under the labels 1, 2, ...:
    no station is left out. *)
Theorem coordtable_returns (rows : list (list string)) (f : frame station) :
  coordtable rows = Return f
  ↔ ∃ hdr data stations,
      omap six_cells rows = hdr :: data
      ∧ Forall2 (λ r s, convert r = Return s) data stations
      ∧ f = relabel stations.
Proof.
  rewrite coordtable_unfold. split.
  - destruct (omap six_cells rows) as [|hdr data]; [done|].
    intros H. apply convert_rows_Forall2 in H.
    apply (Forall2_relabel (λ r s, convert r = Return s)) in H as (k & Hk & ->).
    by exists hdr, data, k.
  - intros (hdr & data & k & -> & Hk & ->).
    apply convert_rows_Forall2.
    apply (Forall2_relabel (λ r s, convert r = Return s)). eauto.
Qed.

(** X3: [coordtable] raises [KeyError] exactly when no row of the page has
    six cells: there is no row labelled 0 to drop. *)
Theorem coordtable_no_rows (rows : list (list string)) :
  coordtable rows = Raise KeyError ↔ Forall (λ cells, length cells ≠ 6%nat) rows.
Proof.
  rewrite coordtable_unfold.
  assert (omap six_cells rows = [] ↔ Forall (λ cells, length cells ≠ 6%nat) rows) as E.
  { induction rows as [|cells rows IH]; [split; [constructor|done]|].
    cbn [omap list_omap]. fold (omap six_cells rows).
    destruct (six_cells cells) as [r|] eqn:Ec.
    - split; [done|]. intros [Hn _]%Forall_cons. exfalso. apply Hn.
      unfold six_cells in Ec.
      by destruct cells as [|? [|? [|? [|? [|? [|? [|? ?]]]]]]].
    - rewrite IH, Forall_cons. split; [|by intros [_ ?]].
      intros H. split; [|done]. intros Hl. unfold six_cells in Ec.
      by destruct cells as [|? [|? [|? [|? [|? [|? [|? ?]]]]]]]. }
  rewrite <- E. destruct (omap six_cells rows) as [|hdr data]; [done|].
  split; [|done]. intros H. apply convert_rows_raise in H. by destruct H.
Qed.

(** X4: a row that does not have exactly six cells (a header, a footer)
    has no effect on the result, wherever it stands. *)
Theorem coordtable_skips_row (before after : list (list string)) (cells : list string) :
  length cells ≠ 6%nat →
  coordtable (before ++ cells :: after) = coordtable (before ++ after).
Proof.
  intros Hl. rewrite !coordtable_unfold.
  assert (omap six_cells (before ++ cells :: after)
          = omap six_cells (before ++ after)) as ->; [|done].
  rewrite !omap_app. f_equal. cbn [omap list_omap].
  assert (six_cells cells = None) as ->; [|done].
  unfold six_cells. by destruct cells as [|? [|? [|? [|? [|? [|? [|? ?]]]]]]].
Qed.

(** ** The text of a cell *)

Lemma lstrip_split l : ∃ ws, l = ws ++ lstrip l ∧ spaces ws ∧ stops (lstrip l).
Proof.
  induction l as [|c l (ws & Hl & Hws & Hst)].
  - exists []. by repeat split; try constructor.
  - simpl. destruct (Re.is_space c) eqn:Hc.
    + exists (c :: ws). split; [by rewrite Hl at 1|]. split; [by constructor|done].
    + exists []. split; [done|]. split; [constructor|done].
Qed.

Lemma lstrip_spaces l : spaces l → lstrip l = [].
Proof. induction 1 as [|c l Hc Hl IH]; simpl; [done|]. by rewrite Hc. Qed.

Lemma spaces_rev l : spaces l → spaces (rev l).
Proof. apply Forall_rev. Qed.

Lemma string_of_list_ascii_nil l : string_of_list_ascii l = EmptyString → l = [].
Proof. by destruct l. Qed.

(** X5: the text of a cell is either null, exactly when the cell holds
    white space only, or the text of the cell between the white space
    before and behind it: a string that is not empty and neither starts nor
    ends with white space. *)
Theorem cell_text_stripped (t : string) :
  (cell_text t = None ↔ spaces (list_ascii_of_string t))
  ∧ ∀ s, cell_text t = Some s →
      s ≠ EmptyString
      ∧ stops (list_ascii_of_string s) ∧ stops (rev (list_ascii_of_string s))
      ∧ ∃ ws1 ws2, spaces ws1 ∧ spaces ws2
          ∧ list_ascii_of_string t = ws1 ++ list_ascii_of_string s ++ ws2.
Proof.
  unfold cell_text, strip. set (l := list_ascii_of_string t).
  destruct (lstrip_split l) as (ws1 & Hl & Hws1 & Hst1).
  destruct (lstrip_split (rev (lstrip l))) as (ws2 & Hr & Hws2 & Hst2).
  set (l2 := lstrip (rev (lstrip l))) in *.
  assert (lstrip l = rev l2 ++ rev ws2) as Hl1.
  { rewrite <- rev_app_distr, <- Hr. by rewrite rev_involutive. }
  split.
  - destruct (decide _) as [E|E].
    + split; [intros _|done]. apply string_of_list_ascii_nil in E.
      rewrite Hl, Hl1, E. apply Forall_app. split; [done|]. by apply spaces_rev.
    + split; [done|]. intros Hsp. exfalso. apply E.
      unfold l2. by rewrite (lstrip_spaces l Hsp).
  - intros s. destruct (decide _) as [E|E]; [done|]. intros [= <-].
    rewrite list_ascii_of_string_of_list_ascii.
    split; [done|]. split; [|split].
    + destruct (rev l2) as [|c m] eqn:Em; [done|].
      rewrite Hl1 in Hst1. exact Hst1.
    + by rewrite rev_involutive.
    + exists ws1, (rev ws2). split; [done|]. split; [by apply spaces_rev|].
      by rewrite <- Hl1.
Qed.

(** X6: the labels of the frame [coordtable] returns are 1, 2, ... in
    order: they are distinct, and none is -1, the label [table] starts its
    search from. *)
Theorem coordtable_labels (rows : list (list string)) (f : frame station) :
  coordtable rows = Return f →
  index f = map (λ i, Z.of_nat (S i)) (seq 0 (length f))
  ∧ NoDup (index f) ∧ (-1)%Z ∉ index f.
Proof.
  intros H. pose proof (coordtable_index rows f H) as Hnd.
  rewrite coordtable_unfold in H.
  destruct (omap six_cells rows) as [|hdr data]; [done|].
  apply convert_rows_return in H as (_ & _ & Hi).
  assert (length f = length data) as Hl.
  { rewrite <- (length_map fst f). fold (index f). rewrite Hi.
    unfold index, relabel. by rewrite length_map, length_imap. }
  assert (index f = map (λ i, Z.of_nat (S i)) (seq 0 (length f))) as E.
  { rewrite Hi, Hl. unfold relabel. by rewrite (index_imap (λ i, Z.of_nat (S i))). }
  split; [done|]. split; [done|].
  rewrite E. intros (i & Hi' & _)%list_elem_of_In%in_map_iff. lia.
Qed.

Lemma coordtable_labels_witness :
  index example_frame = map (λ i, Z.of_nat (S i)) (seq 0 (length example_frame))
  ∧ NoDup (index example_frame) ∧ (-1)%Z ∉ index example_frame.
Proof. apply (coordtable_labels example_catalog example_frame). reflexivity. Defined.

Lemma coordtable_skips_row_witness :
  coordtable ([header] ++ ["Totaal"%string; "2"%string]
                :: [["235"; "De Kooy"; "AWS"; "52 55"; "04 47"; "1.2"]%string])
  = coordtable ([header] ++ [["235"; "De Kooy"; "AWS"; "52 55"; "04 47"; "1.2"]%string]).
Proof.
  apply (coordtable_skips_row [header]
           [["235"; "De Kooy"; "AWS"; "52 55"; "04 47"; "1.2"]%string]
           ["Totaal"%string; "2"%string]).
  simpl. lia.
Defined.

(** ** The scan for the most similar name *)

Section Scan.
Context (coords : frame station) (n : string).
Hypothesis labels : NoDup (index coords).
Hypothesis names : Forall (λ lr, name lr.2 ≠ None) coords.

Lemma scan_step (l : Z) (r : station) (f : frame station) (maxsim : Q) (maxind : Z) :
  (l, r) ∈ coords →
  best_match coords (Some n) (index ((l, r) :: f)) maxsim maxind
  = if Qlt_bool maxsim (sim_of n r)
    then best_match coords (Some n) (index f) (sim_of n r) l
    else best_match coords (Some n) (index f) maxsim maxind.
Proof.
  intros Hin. cbn [index map fst best_match].
  rewrite (loc_NoDup coords l r labels Hin). simpl.
  pose proof (proj1 (Forall_forall _ _) names _ Hin) as Hn. simpl in Hn.
  unfold sim_of. destruct (name r); [done|done].
Qed.

(** No row scores above the running maximum: it stays. *)
Lemma scan_keeps : ∀ (f : frame station) (maxsim : Q) (maxind : Z),
  f ⊆ coords →
  Forall (λ lr, (sim_of n lr.2 <= maxsim)%Q) f →
  best_match coords (Some n) (index f) maxsim maxind = Return (maxsim, maxind).
Proof.
  induction f as [|[l r] f IH]; intros maxsim maxind Hsub Hle; [done|].
  apply Forall_cons in Hle as [Hr Hle]. simpl in Hr.
  rewrite scan_step by (apply Hsub; by left).
  rewrite (proj2 (Qlt_bool_false _ _) Hr).
  apply IH; [|done]. intros x Hx. apply Hsub. by right.
Qed.

(** The first row that scores highest, above the running maximum, wins. *)
Lemma scan_first_maximum : ∀ (pre post : frame station) (l : Z) (r : station)
    (maxsim : Q) (maxind : Z),
  pre ++ (l, r) :: post ⊆ coords →
  (maxsim < sim_of n r)%Q →
  Forall (λ lr, (sim_of n lr.2 < sim_of n r)%Q) pre →
  Forall (λ lr, (sim_of n lr.2 <= sim_of n r)%Q) post →
  best_match coords (Some n) (index (pre ++ (l, r) :: post)) maxsim maxind
  = Return (sim_of n r, l).
Proof.
  induction pre as [|[l' r'] pre IH]; intros post l r maxsim maxind Hsub Hlt Hpre Hpost.
  - change ([] ++ (l, r) :: post) with ((l, r) :: post).
    rewrite scan_step by (apply Hsub; by left).
    rewrite (proj2 (Qlt_bool_true _ _) Hlt).
    apply scan_keeps; [|done]. intros x Hx. apply Hsub. by right.
  - apply Forall_cons in Hpre as [Hr' Hpre]. simpl in Hr'.
    change (((l', r') :: pre) ++ (l, r) :: post) with ((l', r') :: (pre ++ (l, r) :: post)).
    rewrite scan_step by (apply Hsub; by left).
    assert (pre ++ (l, r) :: post ⊆ coords) as Hsub'.
    { intros x Hx. apply Hsub. by right. }
    destruct (Qlt_bool maxsim (sim_of n r')); by apply IH.
Qed.

(** What the scan returns: the running maximum when no row scores above
    it, and otherwise the first of the rows with the highest score. *)
Lemma scan_result : ∀ (f : frame station) (maxsim : Q) (maxind : Z),
  f ⊆ coords →
  (best_match coords (Some n) (index f) maxsim maxind = Return (maxsim, maxind)
   ∧ Forall (λ lr, (sim_of n lr.2 <= maxsim)%Q) f)
  ∨ ∃ pre l r post,
      f = pre ++ (l, r) :: post
      ∧ best_match coords (Some n) (index f) maxsim maxind = Return (sim_of n r, l)
      ∧ (maxsim < sim_of n r)%Q
      ∧ Forall (λ lr, (sim_of n lr.2 < sim_of n r)%Q) pre
      ∧ Forall (λ lr, (sim_of n lr.2 <= sim_of n r)%Q) post.
Proof.
  induction f as [|[l r] f IH]; intros maxsim maxind Hsub.
  { left. by split. }
  assert (f ⊆ coords) as Hsub' by (intros x Hx; apply Hsub; by right).
  rewrite scan_step by (apply Hsub; by left).
  destruct (Qlt_bool maxsim (sim_of n r)) eqn:E.
  - apply Qlt_bool_true in E. right.
    destruct (IH (sim_of n r) l Hsub')
      as [[Hres Hall]|(pre & l' & r' & post & -> & Hres & Hlt & Hpre & Hpost)].
    + exists [], l, r, f. by repeat split.
    + exists ((l, r) :: pre), l', r', post. split; [done|]. split; [done|].
      split; [lra|]. split; [|done]. by constructor.
  - apply Qlt_bool_false in E.
    destruct (IH maxsim maxind Hsub')
      as [[Hres Hall]|(pre & l' & r' & post & -> & Hres & Hlt & Hpre & Hpost)].
    + left. split; [done|]. by constructor.
    + right. exists ((l, r) :: pre), l', r', post. split; [done|]. split; [done|].
      split; [done|]. split; [|done]. constructor; [simpl; lra|done].
Qed.

End Scan.

Lemma sim_of_nonneg n r : (0 <= sim_of n r)%Q.
Proof. unfold sim_of. destruct (name r); [apply ratio_ge_0|done]. Qed.

Lemma rename_None nm : rename nm = None ↔ nm = None.
Proof.
  unfold rename. generalize modify_names as d. intros d. revert nm.
  induction d as [|[old new] d IH]; intros nm; simpl; [done|].
  rewrite IH. destruct (decide _) as [->|]; [split; intros; done|done].
Qed.


Lemma loc_not_index {A} (f : frame A) (l : Z) : l ∉ index f → loc f l = Raise KeyError.
Proof.
  induction f as [|[l' r'] f IH]; simpl; [done|].
  intros H. apply not_elem_of_cons in H as [Hne H].
  rewrite decide_False by done. by apply IH.
Qed.


Section MatchStation.

(** X7: with distinct labels, none of them -1, and a name in every row of
    the catalog, a measurement row whose name (after the renaming) is [n]
    is matched to the row [(l, r)] exactly when [r] scores above zero, every
    row before it scores lower and no row behind it scores higher: of the
    rows with the highest similarity the first one is taken. *)
Theorem match_station_first_maximum (coords : frame station) (nm : option string)
    (n : string) (l : Z) (r : station) :
  NoDup (index coords) →
  Forall (λ lr, name lr.2 ≠ None) coords →
  (-1)%Z ∉ index coords →
  rename nm = Some n →
  match_station coords nm = Return (l, r)
  ↔ ∃ pre post, coords = pre ++ (l, r) :: post
      ∧ (0 < sim_of n r)%Q
      ∧ Forall (λ lr, (sim_of n lr.2 < sim_of n r)%Q) pre
      ∧ Forall (λ lr, (sim_of n lr.2 <= sim_of n r)%Q) post.
Proof.
  intros Hnd Hnames Hneg Hn. rewrite match_station_rename, Hn. unfold matched.
  split.
  - destruct (scan_result coords n Hnd Hnames coords 0%Q (-1)%Z ltac:(done))
      as [[Hres _]|(pre & l' & r' & post & Hc & Hres & Hlt & Hpre & Hpost)].
    + rewrite Hres. simpl. by rewrite loc_not_index.
    + rewrite Hres. simpl.
      rewrite (loc_NoDup coords l' r' Hnd)
        by (rewrite Hc; apply elem_of_app; right; by left).
      simpl. intros [= <- <-]. by exists pre, post.
  - intros (pre & post & Hc & Hlt & Hpre & Hpost).
    rewrite Hc at 2.
    rewrite (scan_first_maximum coords n Hnd Hnames)
      by (try done; by rewrite Hc).
    simpl. rewrite (loc_NoDup coords l r Hnd)
      by (rewrite Hc; apply elem_of_app; right; by left).
    done.
Qed.

Lemma match_station_first_maximum_witness :
  match_station example_coords (Some "Eelde"%string) = Return (3%Z, groningen)
  ↔ ∃ pre post, example_coords = pre ++ (3%Z, groningen) :: post
      ∧ (0 < sim_of "Groningen"%string groningen)%Q
      ∧ Forall (λ lr, (sim_of "Groningen"%string lr.2 < sim_of "Groningen"%string groningen)%Q) pre
      ∧ Forall (λ lr, (sim_of "Groningen"%string lr.2 <= sim_of "Groningen"%string groningen)%Q) post.
Proof.
  apply (match_station_first_maximum example_coords (Some "Eelde"%string) "Groningen"%string
           3%Z groningen).
  - apply (bool_decide_unpack (NoDup (index example_coords))). reflexivity.
  - repeat constructor; discriminate.
  - apply (bool_decide_unpack ((-1)%Z ∉ index example_coords)). reflexivity.
  - reflexivity.
Defined.

(** Under the same conditions the lookup of the matched row raises
    [KeyError] exactly when every row of the catalog scores zero:
    [maxind] is still -1 then. *)
Lemma match_station_zero_scores (coords : frame station) (nm : option string)
    (n : string) :
  NoDup (index coords) →
  Forall (λ lr, name lr.2 ≠ None) coords →
  (-1)%Z ∉ index coords →
  rename nm = Some n →
  match_station coords nm = Raise KeyError
  ↔ Forall (λ lr, (sim_of n lr.2 == 0)%Q) coords.
Proof.
  intros Hnd Hnames Hneg Hn. rewrite match_station_rename, Hn. unfold matched.
  split.
  - destruct (scan_result coords n Hnd Hnames coords 0%Q (-1)%Z ltac:(done))
      as [[Hres Hall]|(pre & l' & r' & post & Hc & Hres & Hlt & Hpre & Hpost)].
    + intros _. eapply Forall_impl; [exact Hall|]. intros [l r] H. simpl in *.
      pose proof (sim_of_nonneg n r). lra.
    + rewrite Hres. simpl.
      rewrite (loc_NoDup coords l' r' Hnd)
        by (rewrite Hc; apply elem_of_app; right; by left).
      done.
  - intros Hall. rewrite (scan_keeps coords n Hnd Hnames).
    + simpl. by rewrite loc_not_index.
    + done.
    + eapply Forall_impl; [exact Hall|]. intros [l r] H. simpl in *. lra.
Qed.

End MatchStation.

(** The scan with a null name on either side: the first row decides when
    the name of the measurement row is null, the first row without a name
    otherwise. *)
Lemma scan_null (coords : frame station) (nm : option string) :
  NoDup (index coords) →
  ∀ (f : frame station) (maxsim : Q) (maxind : Z), f ⊆ coords →
  (nm = None → ∀ l r f', f = (l, r) :: f' →
   best_match coords nm (index f) maxsim maxind
   = Raise (if name r is None then AttributeError else TypeError))
  ∧ (nm ≠ None → Exists (λ lr, name lr.2 = None) f →
     best_match coords nm (index f) maxsim maxind = Raise TypeError)
  ∧ (nm ≠ None → Forall (λ lr, name lr.2 ≠ None) f →
     ∃ s i, best_match coords nm (index f) maxsim maxind = Return (s, i)).
Proof.
  intros Hnd. induction f as [|[l r] f IH]; intros maxsim maxind Hsub.
  { split; [done|]. split; [by intros _ ?%Exists_nil|].
    intros _ _. by exists maxsim, maxind. }
  assert (f ⊆ coords) as Hsub' by (intros x Hx; apply Hsub; by right).
  cbn [index map fst best_match].
  rewrite (loc_NoDup coords l r Hnd) by (apply Hsub; by left).
  cbn [mbind py_bind].
  split; [|split].
  - intros -> l' r' f' [= <- <- <-]. by destruct (name r).
  - intros Hnm H. destruct nm as [n|]; [|done].
    destruct (name r) as [m|] eqn:Em; [|done]. cbn [similarity mbind py_bind].
    apply Exists_cons in H as [H|H]; [simpl in H; congruence|].
    destruct (Qlt_bool _ _); by apply IH.
  - intros Hnm [Hr Hf]%Forall_cons. simpl in Hr.
    destruct nm as [n|]; [|done]. destruct (name r) as [m|]; [|done].
    cbn [similarity mbind py_bind].
    destruct (Qlt_bool _ _); by apply IH.
Qed.



(** ** The positions of an element *)

Lemma filter_ext_elem {A} (P Q : A → Prop) `{∀ x, Decision (P x)}
    `{∀ x, Decision (Q x)} (l : list A) :
  (∀ x, x ∈ l → P x ↔ Q x) → filter P l = filter Q l.
Proof.
  induction l as [|x l IH]; intros Hl; [done|].
  rewrite !filter_cons.
  assert (filter P l = filter Q l) as -> by (apply IH; intros y Hy; apply Hl; by right).
  destruct (decide (P x)) as [Hp|Hp], (decide (Q x)) as [Hq|Hq]; try done;
    exfalso; apply (Hl x ltac:(by left)) in Hp || apply (Hl x ltac:(by left)) in Hq; done.
Qed.

Lemma positions_snoc (b : list ascii) (x : ascii) :
  Difflib.positions (b ++ [x])
  = <[x := default [] (Difflib.positions b !! x) ++ [length b]]> (Difflib.positions b).
Proof.
  unfold Difflib.positions. rewrite imap_app, fold_left_app. simpl.
  by rewrite Nat.add_0_r.
Qed.

(** The dictionary lists, for each element of [b], all its positions in
    ascending order. *)
Lemma positions_spec (b : list ascii) (c : ascii) :
  Difflib.positions b !! c
  = let js := filter (λ j, b !! j = Some c) (seq 0 (length b)) in
    if decide (js = []) then None else Some js.
Proof.
  induction b as [|x b IH] using rev_ind; [done|].
  rewrite positions_snoc. cbn zeta.
  rewrite length_app, seq_app, filter_app. simpl length. simpl seq.
  rewrite (filter_ext_elem (λ j, (b ++ [x]) !! j = Some c) (λ j, b !! j = Some c)
             (seq 0 (length b))).
  2:{ intros j Hj%elem_of_seq. by rewrite lookup_app_l by lia. }
  set (js := filter (λ j, b !! j = Some c) (seq 0 (length b))) in *.
  assert ((b ++ [x]) !! length b = Some x) as Hx.
  { rewrite lookup_app_r by lia. by rewrite Nat.sub_diag. }
  rewrite filter_cons, filter_nil, Hx.
  destruct (decide (x = c)) as [->|Hne].
  - rewrite lookup_insert_eq. rewrite (decide_True (P := Some c = Some c)) by done.
    rewrite (decide_False (P := js ++ [length b] = [])) by (by destruct js).
    f_equal. f_equal. rewrite IH. cbn zeta. fold js. by destruct (decide (js = [])).
  - rewrite lookup_insert_ne by done.
    rewrite (decide_False (P := Some x = Some c)) by congruence.
    rewrite app_nil_r. by rewrite IH.
Qed.

(** ** No common element *)

Section Disjoint.
Context (a b : list ascii).
Hypothesis disjoint : ∀ c, c ∈ a → c ∉ b.

Lemma positions_of_disjoint i : Difflib.positions_of a b i = [].
Proof.
  destruct (Difflib.positions_of a b i) as [|j js] eqn:E; [done|].
  destruct (positions_of_same a b i j) as (x & Ha & Hb).
  { rewrite E. by left. }
  exfalso. apply (disjoint x); by eapply list_elem_of_lookup_2.
Qed.

Lemma same_elt_disjoint i j : Difflib.same_elt a b i j = false.
Proof.
  destruct (Difflib.same_elt a b i j) eqn:E; [|done].
  apply same_elt_spec in E as (x & Ha & Hb).
  exfalso. apply (disjoint x); by eapply list_elem_of_lookup_2.
Qed.

Lemma longest_disjoint alo ahi blo bhi :
  Difflib.longest a b alo ahi blo bhi = (alo, blo, 0%nat).
Proof.
  unfold Difflib.longest.
  generalize (seq alo (ahi - alo)) as l.
  generalize (∅ : gmap nat nat) as m.
  intros m l. revert m. induction l as [|i l IH]; intros m; [done|].
  cbn [fold_left fst snd]. rewrite positions_of_disjoint. cbn [Difflib.scan_row].
  apply IH.
Qed.

Lemma extend_left_disjoint alo blo i j k :
  Difflib.extend_left a b alo blo i j k = (i, j, k).
Proof.
  destruct i as [|i], j as [|j]; try done.
  cbn [Difflib.extend_left]. by rewrite same_elt_disjoint, andb_false_r.
Qed.

Lemma extend_right_disjoint ahi bhi i j steps k :
  Difflib.extend_right a b ahi bhi i j steps k = k.
Proof.
  destruct steps as [|steps]; [done|].
  cbn [Difflib.extend_right]. by rewrite same_elt_disjoint, andb_false_r.
Qed.

Lemma find_longest_match_disjoint alo ahi blo bhi :
  Difflib.find_longest_match a b alo ahi blo bhi = (alo, blo, 0%nat).
Proof.
  unfold Difflib.find_longest_match.
  rewrite longest_disjoint, extend_left_disjoint, extend_right_disjoint. done.
Qed.

Lemma matching_loop_disjoint : ∀ fuel q blocks,
  Difflib.matching_loop a b fuel q blocks = blocks.
Proof.
  induction fuel as [|fuel IH]; intros q blocks; [done|].
  destruct q as [|[[[alo ahi] blo] bhi] q]; [done|].
  cbn [Difflib.matching_loop]. rewrite find_longest_match_disjoint.
  cbn [Nat.eqb]. apply IH.
Qed.

Lemma matches_disjoint : Difflib.matches a b = 0%nat.
Proof.
  unfold Difflib.matches, Difflib.get_matching_blocks.
  by rewrite matching_loop_disjoint.
Qed.

End Disjoint.

(** ** A common element *)

Section Common.
Context (a b : list ascii).

Lemma scan_row_size blo bhi i j2len : ∀ js newj2len best,
  (Difflib.size best
   ≤ Difflib.size (Difflib.scan_row blo bhi i j2len js newj2len best).2)%nat.
Proof.
  induction js as [|j js IH]; intros new best; [done|].
  cbn [Difflib.scan_row].
  destruct (j <? blo)%nat; [apply IH|].
  destruct (bhi <=? j)%nat; [done|].
  etransitivity; [|apply IH].
  destruct (Difflib.size best <? _)%nat eqn:E; [|done].
  apply Nat.ltb_lt in E. unfold Difflib.size in *. simpl in *. lia.
Qed.

Lemma scan_row_hit blo bhi i j2len : ∀ js newj2len best,
  js ≠ [] → (∀ j, j ∈ js → blo ≤ j < bhi)%nat →
  (1 ≤ Difflib.size (Difflib.scan_row blo bhi i j2len js newj2len best).2)%nat.
Proof.
  intros [|j js] new best Hne Hin; [done|].
  cbn [Difflib.scan_row].
  destruct (Hin j ltac:(by left)) as [H1 H2].
  rewrite (proj2 (Nat.ltb_ge j blo)) by lia.
  rewrite (proj2 (Nat.leb_gt bhi j)) by lia.
  etransitivity; [|apply scan_row_size].
  destruct (Difflib.size best <? _)%nat eqn:E.
  - unfold Difflib.size. simpl. lia.
  - apply Nat.ltb_ge in E. lia.
Qed.

Lemma longest_size_fold blo bhi (l : list nat) : ∀ st,
  (Difflib.size st.2
   ≤ Difflib.size (fold_left (λ st i, Difflib.scan_row blo bhi i st.1
                                        (Difflib.positions_of a b i) ∅ st.2) l st).2)%nat.
Proof.
  induction l as [|i l IH]; intros st; [done|].
  cbn [fold_left]. etransitivity; [|apply IH]. apply scan_row_size.
Qed.

Hypothesis short : (length b < 200)%nat.

Lemma b2j_short : Difflib.b2j b = Difflib.positions b.
Proof.
  unfold Difflib.b2j. by rewrite (proj2 (Nat.leb_gt 200 (length b))) by lia.
Qed.

Lemma positions_of_common i j c :
  a !! i = Some c → b !! j = Some c →
  Difflib.positions_of a b i ≠ []
  ∧ ∀ j', j' ∈ Difflib.positions_of a b i → (j' < length b)%nat.
Proof.
  intros Ha Hb. unfold Difflib.positions_of. rewrite Ha, b2j_short, positions_spec.
  cbn zeta.
  assert (j ∈ filter (λ j, b !! j = Some c) (seq 0 (length b))) as Hj.
  { apply list_elem_of_filter. split; [done|]. apply elem_of_seq.
    apply lookup_lt_Some in Hb. lia. }
  destruct (decide _) as [E|E].
  { rewrite E in Hj. by apply elem_of_nil in Hj. }
  simpl. split; [done|].
  intros j' [H _]%list_elem_of_filter. by apply lookup_lt_Some in H.
Qed.

Lemma longest_common i j c :
  a !! i = Some c → b !! j = Some c →
  (1 ≤ Difflib.size (Difflib.longest a b 0 (length a) 0 (length b)))%nat.
Proof.
  intros Ha Hb. unfold Difflib.longest. rewrite Nat.sub_0_r.
  pose proof (lookup_lt_Some _ _ _ Ha) as Hi.
  assert (seq 0 (length a) = seq 0 i ++ i :: seq (S i) (length a - S i)) as ->.
  { replace (length a) with (i + S (length a - S i))%nat at 1 by lia.
    by rewrite seq_app. }
  rewrite fold_left_app. cbn [fold_left].
  etransitivity; [|apply longest_size_fold]. cbn [fst snd].
  destruct (positions_of_common i j c Ha Hb) as [Hne Hlt].
  apply scan_row_hit; [done|]. intros j' Hj'. apply Hlt in Hj'. lia.
Qed.

Lemma extend_left_size alo blo : ∀ i j k,
  (k ≤ Difflib.size (Difflib.extend_left a b alo blo i j k))%nat.
Proof.
  induction i as [|i IH]; intros j k; [done|].
  destruct j as [|j]; [done|]. cbn [Difflib.extend_left].
  destruct (_ && _); [|done]. etransitivity; [|apply IH]. lia.
Qed.

Lemma extend_right_size ahi bhi i j : ∀ steps k,
  (k ≤ Difflib.extend_right a b ahi bhi i j steps k)%nat.
Proof.
  induction steps as [|steps IH]; intros k; [done|].
  cbn [Difflib.extend_right].
  destruct (_ && _); [|done]. etransitivity; [|apply IH]. lia.
Qed.

Lemma find_longest_match_size alo ahi blo bhi :
  (Difflib.size (Difflib.longest a b alo ahi blo bhi)
   ≤ Difflib.size (Difflib.find_longest_match a b alo ahi blo bhi))%nat.
Proof.
  unfold Difflib.find_longest_match.
  destruct (Difflib.longest a b alo ahi blo bhi) as [[i j] k].
  pose proof (extend_left_size alo blo i j k) as H.
  destruct (Difflib.extend_left a b alo blo i j k) as [[i' j'] k'].
  pose proof (extend_right_size ahi bhi i' j' (ahi - (i' + k')) k').
  unfold Difflib.size in *. simpl in *. lia.
Qed.

Lemma matches_common i j c :
  a !! i = Some c → b !! j = Some c → (1 ≤ Difflib.matches a b)%nat.
Proof.
  intros Ha Hb. unfold Difflib.matches, Difflib.get_matching_blocks.
  replace (2 * length a + 1)%nat with (S (2 * length a)) by lia.
  cbn [Difflib.matching_loop].
  pose proof (longest_common i j c Ha Hb) as H1.
  pose proof (find_longest_match_size 0 (length a) 0 (length b)) as H2.
  pose proof (find_longest_match_inside a b 0 (length a) 0 (length b)
                ltac:(lia) ltac:(lia)) as Hin.
  destruct (Difflib.find_longest_match a b 0 (length a) 0 (length b))
    as [[i' j'] k'].
  unfold Difflib.size in H1, H2. simpl in H2. destruct Hin as [Hb' _].
  rewrite (proj2 (Nat.eqb_neq k' 0)) by lia.
  match goal with
  | |- (1 ≤ sum_list_with _ (Difflib.matching_loop a b ?f ?q ?bl))%nat =>
      destruct (matching_loop_spec a b f q bl) as (m & Ht & _)
  end.
  { unfold Difflib.push_if.
    destruct (_ && _), (_ && _); repeat constructor; simpl; lia. }
  unfold total in Ht. rewrite Ht. simpl. unfold Difflib.size. simpl. lia.
Qed.

End Common.

(** ** A sequence against itself *)

Section Same.
Context (a : list ascii).
Local Abbreviation n := (length a).
Local Abbreviation K j2len j := (S (Difflib.j2len_get j2len j)).
Local Abbreviation diagonal := (diagonal a).

Lemma positions_of_self_split i :
  (i < n)%nat →
  Difflib.positions_of a a i = []
  ∨ ∃ js1 js2, Difflib.positions_of a a i = js1 ++ i :: js2
      ∧ Forall (λ j, j < i)%nat js1 ∧ Forall (λ j, i < j < n)%nat js2.
Proof.
  intros Hi. destruct (lookup_lt_is_Some_2 a i Hi) as [c Hc].
  unfold Difflib.positions_of. rewrite Hc.
  destruct (Difflib.b2j a !! c) as [js|] eqn:E; [|by left]. right. simpl.
  assert (Difflib.positions a !! c = Some js) as Hp.
  { unfold Difflib.b2j in E. destruct (200 <=? n)%nat; [|done].
    by apply map_lookup_filter_Some in E as [E _]. }
  rewrite positions_spec in Hp. cbn zeta in Hp.
  destruct (decide _) as [|_]; [done|]. injection Hp as <-.
  assert (seq 0 n = seq 0 i ++ i :: seq (S i) (n - S i)) as ->.
  { replace n with (i + S (n - S i))%nat at 1 by lia. by rewrite seq_app. }
  rewrite filter_app, filter_cons, (decide_True (P := a !! i = Some c)) by done.
  eexists _, _. split; [done|]. split.
  - apply Forall_forall. intros j [_ Hj%elem_of_seq]%list_elem_of_filter. lia.
  - apply Forall_forall. intros j [_ Hj%elem_of_seq]%list_elem_of_filter. lia.
Qed.

Lemma positions_of_self_same i j :
  j ∈ Difflib.positions_of a a i →
  Difflib.positions_of a a j = Difflib.positions_of a a i.
Proof.
  intros (x & Hi & Hj)%positions_of_same. unfold Difflib.positions_of.
  by rewrite Hi, Hj.
Qed.

Lemma kept_positions i j : j ∈ Difflib.positions_of a a i → kept a j = true.
Proof.
  intros Hj. unfold kept. rewrite (positions_of_self_same i j Hj).
  destruct (Difflib.positions_of a a i); [by apply elem_of_nil in Hj|done].
Qed.

Lemma run_kept i :
  kept a i = true → run a i = S (match i with O => 0 | S i' => run a i' end).
Proof. intros H. destruct i; simpl; by rewrite H. Qed.

Lemma run_not_kept i : kept a i = false → run a i = 0%nat.
Proof. intros H. destruct i; simpl; by rewrite H. Qed.

Lemma fold_insert_lookup (f : nat → nat) (js : list nat) : ∀ (m : gmap nat nat) j,
  fold_left (λ m j, <[j := f j]> m) js m !! j
  = if decide (j ∈ js) then Some (f j) else m !! j.
Proof.
  induction js as [|j' js IH]; intros m j.
  - cbn [fold_left]. destruct (decide (j ∈ [])) as [H|H]; [|done].
    by apply elem_of_nil in H.
  - cbn [fold_left]. rewrite IH.
    destruct (decide (j ∈ js)) as [Hin|Hnin];
      destruct (decide (j ∈ j' :: js)) as [Hin'|Hnin']; try done.
    + exfalso. apply Hnin'. by right.
    + apply elem_of_cons in Hin' as [->|?]; [|done]. by rewrite lookup_insert_eq.
    + rewrite lookup_insert_ne; [done|]. intros ->. apply Hnin'. by left.
Qed.

(** Positions that do not beat the best block only fill [newj2len]. *)
Lemma scan_row_quiet i j2len : ∀ js js' newj2len best,
  Forall (λ j, j < n ∧ K j2len j ≤ Difflib.size best)%nat js →
  Difflib.scan_row 0 n i j2len (js ++ js') newj2len best
  = Difflib.scan_row 0 n i j2len js'
      (fold_left (λ m j, <[j := K j2len j]> m) js newj2len) best.
Proof.
  induction js as [|j js IH]; intros js' new best Hjs; [done|].
  apply Forall_cons in Hjs as [[Hj Hk] Hjs].
  cbn [app Difflib.scan_row fold_left].
  rewrite (proj2 (Nat.leb_gt n j)) by lia.
  rewrite (proj2 (Nat.ltb_ge j 0)) by lia.
  rewrite (proj2 (Nat.ltb_ge _ _) Hk). by apply IH.
Qed.

Lemma diagonal_row i st :
  (i < n)%nat → diagonal i st →
  diagonal (S i) (Difflib.scan_row 0 n i st.1 (Difflib.positions_of a a i) ∅ st.2).
Proof.
  intros Hi (H1 & H2 & bi & bk & Hbest & H3).
  destruct (positions_of_self_split i Hi) as [E|(js1 & js2 & E & Hjs1 & Hjs2)].
  { rewrite E. cbn [Difflib.scan_row].
    assert (run a i = 0%nat) as Hrun by (apply run_not_kept; unfold kept; by rewrite E).
    split; [|split].
    - intros j k H. simpl in H. by rewrite lookup_empty in H.
    - intros i' [= <-]. simpl. by rewrite lookup_empty.
    - exists bi, bk. split; [done|]. intros t Ht.
      destruct (decide (t = i)) as [->|]; [lia|]. apply H3. lia. }
  assert (∀ j, j ∈ Difflib.positions_of a a i →
            (K st.1 j ≤ run a i)%nat ∧ (K st.1 j ≤ run a j)%nat) as HK.
  { intros j Hj.
    pose proof (kept_positions i j Hj) as Hkj.
    assert (kept a i = true) as Hki.
    { apply (kept_positions i i). rewrite E. apply elem_of_app. right. by left. }
    rewrite (run_kept i Hki), (run_kept j Hkj).
    unfold Difflib.j2len_get. destruct j as [|j']; [lia|].
    destruct (st.1 !! j') as [k|] eqn:Ek; simpl; [|lia].
    destruct (H1 j' k Ek) as (i' & -> & Hk1 & Hk2). lia. }
  assert (K st.1 i = run a i) as HKi.
  { assert (kept a i = true) as Hki.
    { apply (kept_positions i i). rewrite E. apply elem_of_app. right. by left. }
    rewrite (run_kept i Hki). unfold Difflib.j2len_get.
    destruct i as [|i']; [done|]. by rewrite (H2 i' eq_refl). }
  set (K' := λ j, K st.1 j).
  set (best' := if (bk <? run a i)%nat
                then ((S i - run a i)%nat, (S i - run a i)%nat, run a i)
                else (bi, bi, bk)).
  assert (Difflib.scan_row 0 n i st.1 (Difflib.positions_of a a i) ∅ st.2
          = (fold_left (λ m j, <[j := K' j]> m) (Difflib.positions_of a a i) ∅, best'))
    as ->.
  { rewrite E at 1. rewrite scan_row_quiet.
    2:{ rewrite Forall_forall in Hjs1. apply Forall_forall. intros j Hj.
        specialize (Hjs1 j Hj). split; [lia|].
        rewrite Hbest. unfold Difflib.size. simpl.
        destruct (HK j) as [_ Hr]; [rewrite E; apply elem_of_app; by left|].
        specialize (H3 j Hjs1). lia. }
    cbn [Difflib.scan_row].
    rewrite (proj2 (Nat.leb_gt n i)) by lia.
    rewrite (proj2 (Nat.ltb_ge i 0)) by lia.
    rewrite HKi. rewrite Hbest. unfold Difflib.size at 1. cbn [snd].
    fold best'.
    rewrite <- (app_nil_r js2) at 1. rewrite scan_row_quiet.
    2:{ rewrite Forall_forall in Hjs2. apply Forall_forall. intros j Hj.
        specialize (Hjs2 j Hj). split; [lia|].
        destruct (HK j) as [Hr _].
        { rewrite E. apply elem_of_app. right. by right. }
        assert (run a i ≤ Difflib.size best')%nat.
        { unfold best', Difflib.size. destruct (bk <? run a i)%nat eqn:Eb; simpl.
          - lia.
          - apply Nat.ltb_ge in Eb. lia. }
        lia. }
    cbn [Difflib.scan_row]. f_equal.
    rewrite E, fold_left_app. cbn [fold_left]. unfold K'. by rewrite HKi. }
  split; [|split].
  - intros j k. cbn [fst]. rewrite fold_insert_lookup.
    destruct (decide _) as [Hj|]; [|by rewrite lookup_empty].
    intros [= <-]. exists i. split; [done|]. by apply HK.
  - intros i' [= <-]. cbn [fst]. rewrite fold_insert_lookup.
    rewrite decide_True; [done|]. rewrite E. apply elem_of_app. right. by left.
  - cbn [snd]. unfold best'. destruct (bk <? run a i)%nat eqn:Eb.
    + apply Nat.ltb_lt in Eb. eexists _, _. split; [done|]. intros t Ht.
      destruct (decide (t = i)) as [->|]; [lia|].
      specialize (H3 t ltac:(lia)). lia.
    + apply Nat.ltb_ge in Eb. exists bi, bk. split; [done|]. intros t Ht.
      destruct (decide (t = i)) as [->|]; [lia|]. apply H3. lia.
Qed.

Lemma longest_diagonal :
  ∃ i k, Difflib.longest a a 0 n 0 n = (i, i, k).
Proof.
  unfold Difflib.longest. rewrite Nat.sub_0_r.
  assert (∀ m i st, (i + m = n)%nat → diagonal i st →
            diagonal n (fold_left
              (λ st i, Difflib.scan_row 0 n i st.1 (Difflib.positions_of a a i) ∅ st.2)
              (seq i m) st)) as Hfold.
  { induction m as [|m IH]; intros i st Him Hst.
    - simpl. by replace n with i by lia.
    - cbn [seq fold_left]. apply IH; [lia|]. apply diagonal_row; [lia|done]. }
  destruct (Hfold n 0%nat (∅, (0%nat, 0%nat, 0%nat))) as (_ & _ & bi & bk & Hb & _).
  - done.
  - split; [|split].
    + intros j k H. simpl in H. by rewrite lookup_empty in H.
    + done.
    + exists 0%nat, 0%nat. split; [done|]. intros t Ht. lia.
  - by exists bi, bk.
Qed.

Lemma same_elt_diagonal i : (i < n)%nat → Difflib.same_elt a a i i = true.
Proof.
  intros Hi. unfold Difflib.same_elt.
  destruct (lookup_lt_is_Some_2 a i Hi) as [c ->]. by apply bool_decide_eq_true.
Qed.

Lemma extend_left_diagonal : ∀ i k,
  (i ≤ n)%nat → Difflib.extend_left a a 0 0 i i k = (0%nat, 0%nat, (k + i)%nat).
Proof.
  induction i as [|i IH]; intros k Hi.
  - simpl. by rewrite Nat.add_0_r.
  - cbn [Difflib.extend_left]. rewrite same_elt_diagonal by lia.
    cbn [Nat.ltb Nat.leb andb]. rewrite IH by lia. f_equal. lia.
Qed.

Lemma extend_right_diagonal : ∀ steps k,
  (k + steps = n)%nat → Difflib.extend_right a a n n 0 0 steps k = n.
Proof.
  induction steps as [|steps IH]; intros k Hk.
  - simpl. lia.
  - cbn [Difflib.extend_right]. cbn [Nat.add].
    rewrite (proj2 (Nat.ltb_lt k n)) by lia.
    rewrite same_elt_diagonal by lia. cbn [andb]. apply IH. lia.
Qed.

Lemma find_longest_match_self : Difflib.find_longest_match a a 0 n 0 n = (0%nat, 0%nat, n).
Proof.
  unfold Difflib.find_longest_match.
  pose proof (longest_inside a a 0 n 0 n ltac:(lia) ltac:(lia)) as Hin.
  destruct longest_diagonal as (i & k & E). rewrite E in *.
  destruct Hin as [Hb _].
  rewrite extend_left_diagonal by lia.
  rewrite extend_right_diagonal by lia. done.
Qed.

Lemma matches_self : Difflib.matches a a = n.
Proof.
  unfold Difflib.matches, Difflib.get_matching_blocks.
  replace (2 * n + 1)%nat with (S (2 * n)) by lia.
  cbn [Difflib.matching_loop]. rewrite find_longest_match_self.
  destruct (n =? 0)%nat eqn:E.
  - apply Nat.eqb_eq in E. destruct (2 * n)%nat; simpl; lia.
  - rewrite Nat.add_0_l, Nat.ltb_irrefl. cbn [andb Difflib.push_if].
    destruct (2 * n)%nat; simpl; unfold Difflib.size; simpl; lia.
Qed.

Lemma ratio_self : (Difflib.ratio a a == 1)%Q.
Proof.
  unfold Difflib.ratio. rewrite matches_self.
  destruct (n + n =? 0)%nat eqn:E; [done|].
  apply Nat.eqb_neq in E. unfold Qeq. simpl. lia.
Qed.

End Same.

(** ** The similarity of two names *)

Lemma ratio_zero_disjoint (a b : list ascii) :
  a ≠ [] ∨ b ≠ [] → (∀ c, c ∈ a → c ∉ b) → (Difflib.ratio a b == 0)%Q.
Proof.
  intros Hne Hd. unfold Difflib.ratio. rewrite matches_disjoint by done.
  destruct (length a + length b =? 0)%nat eqn:E; [|done].
  apply Nat.eqb_eq in E. destruct a, b; simpl in E; try lia. by destruct Hne.
Qed.

Lemma ratio_zero_short (a b : list ascii) :
  (length b < 200)%nat → (Difflib.ratio a b == 0)%Q →
  (a ≠ [] ∨ b ≠ []) ∧ ∀ c, c ∈ a → c ∉ b.
Proof.
  intros Hb. unfold Difflib.ratio.
  destruct (length a + length b =? 0)%nat eqn:E; [done|].
  apply Nat.eqb_neq in E. intros H. split.
  - destruct a, b; simpl in E; try lia; auto.
  - intros c [i Hi]%list_elem_of_lookup [j Hj]%list_elem_of_lookup.
    pose proof (matches_common a b Hb i j c Hi Hj).
    unfold Qeq in H. simpl in H. lia.
Qed.

Lemma ratio_one_iff (a b : list ascii) : (Difflib.ratio a b == 1)%Q ↔ a = b.
Proof.
  split.
  - intros H. apply ratio_1_eq. rewrite H. apply Qle_refl.
  - intros ->. apply ratio_self.
Qed.

Lemma list_ascii_nil (s : string) : list_ascii_of_string s = [] ↔ s = EmptyString.
Proof. by destruct s. Qed.

(** X9: the similarity of two names is a number from 0 to 1; it is 1
    exactly when the names are equal; it is 0 when the names share no
    character (and are not both empty), and for a second name shorter than
    200 characters only then. *)
Theorem similarity_score (x y : string) :
  ∃ s, similarity (Some x) (Some y) = Return s
       ∧ (0 <= s <= 1)%Q
       ∧ ((s == 1)%Q ↔ x = y)
       ∧ ((x ≠ EmptyString ∨ y ≠ EmptyString)
          ∧ (∀ c, c ∈ list_ascii_of_string x → c ∉ list_ascii_of_string y)
          → (s == 0)%Q)
       ∧ ((String.length y < 200)%nat → (s == 0)%Q →
          (x ≠ EmptyString ∨ y ≠ EmptyString)
          ∧ ∀ c, c ∈ list_ascii_of_string x → c ∉ list_ascii_of_string y).
Proof.
  eexists. split; [done|].
  split; [split; [apply ratio_ge_0|apply ratio_le_1]|].
  split; [|split].
  - rewrite ratio_one_iff. split; [apply list_ascii_of_string_inj|by intros ->].
  - intros [Hne Hd]. apply ratio_zero_disjoint; [|done].
    rewrite !list_ascii_nil. tauto.
  - intros Hy H. apply ratio_zero_short in H as [Hne Hd].
    + rewrite !list_ascii_nil in Hne. done.
    + by rewrite length_list_ascii_of_string.
Qed.

(** ** Matching by name *)

Lemma sim_of_one (n : string) (r : station) :
  name r ≠ None → ((sim_of n r == 1)%Q ↔ name r = Some n).
Proof.
  unfold sim_of. destruct (name r) as [m|]; [intros _|done].
  rewrite ratio_one_iff. split.
  - by intros ->%list_ascii_of_string_inj.
  - by intros [= ->].
Qed.

Lemma sim_of_le_1 (n : string) (r : station) : (sim_of n r <= 1)%Q.
Proof. unfold sim_of. destruct (name r); [apply ratio_le_1|done]. Qed.

(** X10: with distinct labels and a name in every row of the catalog, a
    measurement row whose name (after the renaming) is exactly the name of
    a catalog row is matched to the first catalog row of that name,
    whatever the other rows are called. *)
Theorem match_station_exact_name (coords pre post : frame station)
    (nm : option string) (n : string) (l : Z) (r : station) :
  NoDup (index coords) →
  Forall (λ lr, name lr.2 ≠ None) coords →
  rename nm = Some n →
  coords = pre ++ (l, r) :: post →
  name r = Some n →
  Forall (λ lr, name lr.2 ≠ Some n) pre →
  match_station coords nm = Return (l, r).
Proof.
  intros Hnd Hnames Hn Hc Hr Hpre.
  assert (name r ≠ None) as Hr' by congruence.
  pose proof (proj2 (sim_of_one n r Hr') Hr) as H1.
  rewrite match_station_rename, Hn. unfold matched. rewrite Hc at 2.
  rewrite (scan_first_maximum coords n Hnd Hnames).
  - cbn [mbind py_bind]. rewrite (loc_NoDup coords l r Hnd); [done|].
    rewrite Hc. apply elem_of_app. right. by left.
  - by rewrite Hc.
  - lra.
  - apply Forall_forall. intros [l' r'] Hin. simpl.
    pose proof (sim_of_le_1 n r').
    destruct (Qlt_le_dec (sim_of n r') 1) as [Hlt|Hge]; [lra|]. exfalso.
    assert (sim_of n r' == 1)%Q as H1' by lra.
    apply sim_of_one in H1'.
    + by apply (proj1 (Forall_forall _ _) Hpre _ Hin).
    + apply (proj1 (Forall_forall _ _) Hnames (l', r')).
      rewrite Hc. apply elem_of_app. by left.
  - apply Forall_forall. intros [l' r'] Hin. simpl.
    pose proof (sim_of_le_1 n r'). lra.
Qed.

Lemma match_station_exact_name_witness :
  match_station example_coords (Some "Eelde"%string) = Return (3%Z, groningen).
Proof.
  apply (match_station_exact_name example_coords
           [(1%Z, den_helder); (2%Z, de_kooy)] [] (Some "Eelde"%string)
           "Groningen"%string 3%Z groningen).
  - apply (bool_decide_unpack (NoDup (index example_coords))). reflexivity.
  - repeat constructor; discriminate.
  - reflexivity.
  - reflexivity.
  - reflexivity.
  - repeat constructor; discriminate.
Defined.

(** X11: with distinct labels, none of them -1, and a name shorter than
    200 characters in every row of the catalog, the match of a measurement
    row raises [KeyError] exactly when its name (after the renaming) shares
    no character with the name of any catalog row, and is not empty along
    with one of them; this is so on a catalog without rows. *)
Theorem match_station_KeyError (coords : frame station) (nm : option string)
    (n : string) :
  NoDup (index coords) →
  Forall (λ lr, ∃ m, name lr.2 = Some m ∧ (String.length m < 200)%nat) coords →
  (-1)%Z ∉ index coords →
  rename nm = Some n →
  match_station coords nm = Raise KeyError
  ↔ Forall (λ lr, ∃ m, name lr.2 = Some m
                       ∧ (n ≠ EmptyString ∨ m ≠ EmptyString)
                       ∧ ∀ c, c ∈ list_ascii_of_string n → c ∉ list_ascii_of_string m)
           coords.
Proof.
  intros Hnd Hnames Hneg Hn.
  rewrite (match_station_zero_scores coords nm n Hnd); [|
    eapply Forall_impl; [exact Hnames|]; intros lr (m & -> & _); done |done|done].
  rewrite !Forall_forall. split; intros H lr Hin; specialize (H lr Hin);
    destruct (proj1 (Forall_forall _ _) Hnames lr Hin) as (m & Hm & Hlen).
  - exists m. split; [done|]. unfold sim_of in H. rewrite Hm in H.
    apply ratio_zero_short in H as [Hne Hd]; [|by rewrite length_list_ascii_of_string].
    rewrite !list_ascii_nil in Hne. done.
  - destruct H as (m' & Hm' & Hne & Hd). rewrite Hm in Hm'. injection Hm' as <-.
    unfold sim_of. rewrite Hm. apply ratio_zero_disjoint; [|done].
    rewrite !list_ascii_nil. tauto.
Qed.

Lemma match_station_KeyError_witness :
  match_station [(4%Z, de_bilt); (7%Z, de_kooy)] (Some "Urk"%string) = Raise KeyError
  ↔ Forall (λ lr, ∃ m, name lr.2 = Some m
                       ∧ ("Urk"%string ≠ EmptyString ∨ m ≠ EmptyString)
                       ∧ ∀ c, c ∈ list_ascii_of_string "Urk"
                              → c ∉ list_ascii_of_string m)
           [(4%Z, de_bilt); (7%Z, de_kooy)].
Proof.
  apply (match_station_KeyError [(4%Z, de_bilt); (7%Z, de_kooy)]
           (Some "Urk"%string) "Urk"%string).
  - apply (bool_decide_unpack (NoDup (index [(4%Z, de_bilt); (7%Z, de_kooy)]))).
    reflexivity.
  - repeat constructor; eexists; (split; [reflexivity|simpl; lia]).
  - apply (bool_decide_unpack ((-1)%Z ∉ index [(4%Z, de_bilt); (7%Z, de_kooy)])).
    reflexivity.
  - reflexivity.
Defined.

(** ** More on the estimate *)

Section Means.
Local Open Scope R_scope.







End Means.

(** ** [distance] *)

Section Distance.
Local Open Scope R_scope.

(** X15: [distance] gives one number for each station, in the order of the
    frame; it is not negative, and zero exactly for a station at the
    point. *)
Theorem distance_zero_iff (p : R * R) (data : list observation) :
  length (distance p data) = length data
  ∧ Forall2 (λ o d, 0 <= d ∧ (d = 0 ↔ coords o = p)) data (distance p data).
Proof.
  unfold distance. split; [by rewrite length_map|].
  induction data as [|o data IH]; [constructor|].
  constructor; [|done]. split; [apply point_distance_nonneg|].
  rewrite point_distance_0. split; congruence.
Qed.

End Distance.

(** ** [map] *)

Section Plot.
Local Open Scope R_scope.
Context (to_crs : R * R → R * R).

Lemma dropna_no_null (dropifna : list column) (data : list observation) (col : column) :
  col ∈ dropifna →
  Forall (λ o, cell o col ≠ None) (map_data to_crs dropifna data).
Proof.
  intros Hcol. unfold map_data, dropna. rewrite map_fmap. apply Forall_forall.
  intros o (o' & -> & [Ho' _]%list_elem_of_filter)%list_elem_of_fmap.
  simpl. by apply (proj1 (Forall_forall _ _) Ho').
Qed.

Lemma map_data_nil (dropifna : list column) (data : list observation) :
  map_data to_crs dropifna data = []
  ↔ Forall (λ o, Exists (λ c, cell o c = None) dropifna) data.
Proof.
  unfold map_data, dropna.
  assert (∀ l : list observation,
            map (λ o, {| coords := to_crs (coords o); cell := cell o |}) l = []
            ↔ l = []) as -> by (intros []; split; done).
  induction data as [|o data IH]; [by split|].
  rewrite filter_cons, Forall_cons, <- IH.
  destruct (decide _) as [Hk|Hd].
  - split; [done|]. intros [Hex _]. exfalso.
    apply Exists_exists in Hex as (c & Hc & Hn).
    by apply (proj1 (Forall_forall _ _) Hk c).
  - split; [|tauto]. intros ->. split; [|done].
    apply not_Forall_Exists in Hd; [|intros c; apply _].
    eapply Exists_impl; [exact Hd|]. intros c Hc. simpl in Hc.
    destruct (cell o c); [exfalso; by apply Hc|done].
Qed.

Lemma map__returns (timestamp : bool) (dropifna : list column)
    (table_data data : list observation) :
  map_ to_crs timestamp dropifna table_data = Return data
  ↔ data = map_data to_crs dropifna table_data ∧ (timestamp = true → data ≠ []).
Proof.
  unfold map_. destruct timestamp.
  - destruct (map_data _ _ _) as [|o l]; split.
    + done.
    + intros [-> H]. by destruct H.
    + intros [= <-]. done.
    + by intros [-> _].
  - split; [intros [= <-]; done|by intros [-> _]].
Qed.

(** X16: the frame [map] returns for a [dropifna] that contains the column
    has a value of the column in every row, so at a station of that frame
    [idw] gives a number and not NaN, for any projection of the points;
    on a frame without rows, which [map] returns only when it places no
    time stamp, [idw] raises [ZeroDivisionError]. *)
Theorem idw_after_map (timestamp : bool) (dropifna : list column)
    (table_data data : list observation) (x y p : R) (col : column) :
  col ∈ dropifna →
  map_ to_crs timestamp dropifna table_data = Return data →
  Forall (λ o, cell o col ≠ None) data
  ∧ (Exists (coincident x y) data → ∃ v, idw data x y p col = Return (Some v))
  ∧ (data = [] → timestamp = false ∧ idw data x y p col = Raise ZeroDivisionError).
Proof.
  intros Hcol [-> Hts]%map__returns.
  pose proof (dropna_no_null dropifna table_data col Hcol) as Hall.
  set (data := map_data to_crs dropifna table_data) in *.
  split; [done|]. split.
  - intros Hex.
    assert (data ≠ []) as Hne by (intros E; rewrite E in Hex; by apply Exists_nil in Hex).
    rewrite idw_no_null by done. eauto.
  - intros E. split; [|by apply idw_empty].
    destruct timestamp; [|done]. by destruct Hts.
Qed.

(** X17: with a time stamp asked for, [map] raises [IndexError] exactly
    when every station lacks a value in one of the columns of [dropifna]:
    no row is left to read the time stamp from.  A frame that [map]
    returns holds stations of the table only, each with a value in every
    column of [dropifna], and with a time stamp it is not empty. *)
Theorem map_no_station (timestamp : bool) (dropifna : list column)
    (table_data : list observation) :
  (map_ to_crs true dropifna table_data = Raise IndexError
   ↔ Forall (λ o, Exists (λ c, cell o c = None) dropifna) table_data)
  ∧ ∀ data, map_ to_crs timestamp dropifna table_data = Return data →
      (timestamp = true → data ≠ [])
      ∧ (length data ≤ length table_data)%nat
      ∧ Forall (λ o, Forall (λ c, cell o c ≠ None) dropifna
                     ∧ ∃ o', o' ∈ table_data ∧ cell o = cell o'
                             ∧ coords o = to_crs (coords o')) data.
Proof.
  split.
  - rewrite <- map_data_nil. unfold map_.
    destruct (map_data to_crs dropifna table_data); by split.
  - intros data [-> Hts]%map__returns. split; [done|]. split.
    + unfold map_data, dropna. rewrite length_map. apply length_filter.
    + unfold map_data, dropna. rewrite map_fmap. apply Forall_forall.
      intros o (o' & -> & [Hk Ho']%list_elem_of_filter)%list_elem_of_fmap.
      split; [done|]. by exists o'.
Qed.

End Plot.

Section PlotExamples.
Local Open Scope R_scope.

Lemma idw_after_map_witness :
  Forall (λ o, cell o temp ≠ None) (map_data (λ c, c) [temp] [station_a; station_b])
  ∧ (Exists (coincident 1 2) (map_data (λ c, c) [temp] [station_a; station_b]) →
     ∃ v, idw (map_data (λ c, c) [temp] [station_a; station_b]) 1 2 2 temp
          = Return (Some v))
  ∧ (map_data (λ c, c) [temp] [station_a; station_b] = [] →
     true = false
     ∧ idw (map_data (λ c, c) [temp] [station_a; station_b]) 1 2 2 temp
       = Raise ZeroDivisionError).
Proof.
  apply (idw_after_map (λ c, c) true [temp] [station_a; station_b]
           (map_data (λ c, c) [temp] [station_a; station_b]) 1 2 2 temp).
  - by left.
  - apply (map__returns (λ c, c)). split; [done|]. intros _.
    unfold map_data, dropna. rewrite filter_cons, decide_False.
    + rewrite filter_cons, decide_True; [done|].
      repeat constructor. discriminate.
    + intros H. apply Forall_cons in H as [H _]. by apply H.
Defined.

End PlotExamples.

(** ** The contour levels *)

Section Levels.
Local Open Scope R_scope.

Lemma MinRlist_In (l : list R) : l ≠ [] → In (MinRlist l) l.
Proof.
  induction l as [|a l IH]; [done|]. intros _.
  destruct l as [|b l]; [by left|].
  change (MinRlist (a :: b :: l)) with (Rmin a (MinRlist (b :: l))).
  unfold Rmin. destruct (Rle_dec _ _); [by left|].
  right. by apply IH.
Qed.

Lemma MaxRlist_In (l : list R) : l ≠ [] → In (MaxRlist l) l.
Proof.
  intros H. apply MaxRlist_P2. destruct l as [|a l]; [done|].
  exists a. by left.
Qed.

Lemma math_floor_spec (v : R) : IZR (math_floor v) <= v < IZR (math_floor v) + 1.
Proof. unfold math_floor. pose proof (base_Int_part v). lra. Qed.

Lemma math_ceil_spec (v : R) : IZR (math_ceil v) - 1 < v <= IZR (math_ceil v).
Proof.
  unfold math_ceil. pose proof (base_Int_part (- v)). rewrite opp_IZR. lra.
Qed.

Lemma range_seq (start stop : Z) (n : nat) :
  (stop - start = Z.of_nat n)%Z →
  range start stop = map (λ i, (start + Z.of_nat i)%Z) (seq 0 n).
Proof. intros H. unfold range. by rewrite H, Nat2Z.id. Qed.

(** X20: for a matrix of numbers with a cell, the contour levels are
    consecutive integers, at least one, from the floor of the least cell to
    the ceiling of the largest: every cell lies between the lowest and the
    highest level, some cell less than 1 above the lowest and some cell
    less than 1 below the highest.  There is a single level, where filled
    contours need two, exactly when all cells hold the same integer. *)
Theorem levels_cover (z : list (list R)) :
  concat z ≠ [] →
  ∃ (lo : Z) (n : nat),
    levels z = Some (map (λ i, (lo + Z.of_nat i)%Z) (seq 0 (S n)))
    ∧ Forall (λ v, IZR lo <= v <= IZR (lo + Z.of_nat n)) (concat z)
    ∧ Exists (λ v, v < IZR lo + 1) (concat z)
    ∧ Exists (λ v, IZR (lo + Z.of_nat n) - 1 < v) (concat z)
    ∧ (n = 0%nat ↔ Forall (λ v, v = IZR lo) (concat z)).
Proof.
  intros Hne. unfold levels.
  destruct (concat z) as [|c cells] eqn:E; [done|]. clear E z.
  set (l := c :: cells) in *.
  set (m := MinRlist l). set (M := MaxRlist l).
  pose proof (math_floor_spec m) as Hlo. pose proof (math_ceil_spec M) as Hhi.
  set (lo := math_floor m) in *. set (hi := math_ceil M) in *.
  assert (m <= M) as HmM.
  { apply (MinRlist_P1 l). by apply MaxRlist_In. }
  assert (lo <= hi)%Z as Hle by (apply le_IZR; lra).
  exists lo, (Z.to_nat (hi - lo)).
  assert (lo + Z.of_nat (Z.to_nat (hi - lo)) = hi)%Z as Ehi by lia.
  rewrite Ehi.
  split; [|split; [|split; [|split]]].
  - f_equal. apply range_seq. lia.
  - apply Forall_forall. intros v Hv%list_elem_of_In.
    assert (m <= v) by (by apply MinRlist_P1).
    assert (v <= M) by (by apply MaxRlist_P1). lra.
  - apply Exists_exists. exists m. split; [|lra].
    apply list_elem_of_In. by apply MinRlist_In.
  - apply Exists_exists. exists M. split; [|lra].
    apply list_elem_of_In. by apply MaxRlist_In.
  - split.
    + intros Hn. assert (hi = lo) as Heq by lia. rewrite Heq in *.
      apply Forall_forall. intros v Hv%list_elem_of_In.
      assert (m <= v) by (by apply MinRlist_P1).
      assert (v <= M) by (by apply MaxRlist_P1). lra.
    + intros Hall.
      assert (m = IZR lo) as Em.
      { apply (proj1 (Forall_forall _ _) Hall).
        apply list_elem_of_In. by apply MinRlist_In. }
      assert (M = IZR lo) as EM.
      { apply (proj1 (Forall_forall _ _) Hall).
        apply list_elem_of_In. by apply MaxRlist_In. }
      assert (hi < lo + 1)%Z by (apply lt_IZR; rewrite plus_IZR; lra).
      lia.
Qed.

Lemma levels_cover_witness :
  ∃ (lo : Z) (n : nat),
    levels [[7; 9]; [8; 7]] = Some (map (λ i, (lo + Z.of_nat i)%Z) (seq 0 (S n)))
    ∧ Forall (λ v, IZR lo <= v <= IZR (lo + Z.of_nat n)) (concat [[7; 9]; [8; 7]])
    ∧ Exists (λ v, v < IZR lo + 1) (concat [[7; 9]; [8; 7]])
    ∧ Exists (λ v, IZR (lo + Z.of_nat n) - 1 < v) (concat [[7; 9]; [8; 7]])
    ∧ (n = 0%nat ↔ Forall (λ v, v = IZR lo) (concat [[7; 9]; [8; 7]])).
Proof. apply (levels_cover [[7; 9]; [8; 7]]). discriminate. Defined.

End Levels.

(** ** [table] *)

(** The row [table] makes of a measurement row and the station matched to
    it: the index [sid], the point (longitude, latitude) and the numeric
    cells. *)
Lemma table_row (catalog : frame station) (m : measurement)
    (o : option string * observation) :
  ('(i, la, lo) ← resolved catalog (station_name m);
   Return (i, {| coords := (Q2R lo, Q2R la); cell := readings m |})) = Return o
  ↔ ∃ l r, match_station catalog (station_name m) = Return (l, r)
      ∧ o = (sid r, {| coords := (Q2R (lon r), Q2R (lat r)); cell := readings m |}).
Proof.
  unfold resolved.
  destruct (match_station catalog (station_name m)) as [e|[l r]]; cbn [mbind py_bind].
  - split; [done|]. by intros (? & ? & ? & _).
  - split.
    + intros [= <-]. by exists l, r.
    + by intros (? & ? & [= <- <-] & ->).
Qed.

Lemma table_row_Raise (catalog : frame station) (m : measurement) (e : exn) :
  ('(i, la, lo) ← resolved catalog (station_name m);
   Return (i, {| coords := (Q2R lo, Q2R la); cell := readings m |}))
  = (Raise e : py (option string * observation))
  ↔ match_station catalog (station_name m) = Raise e.
Proof.
  unfold resolved.
  destruct (match_station catalog (station_name m)) as [e'|[l r]]; cbn [mbind py_bind].
  - split; intros [= ->]; done.
  - split; done.
Qed.

Lemma match_station_elem_of (catalog : frame station) (nm : option string)
    (l : Z) (r : station) :
  match_station catalog nm = Return (l, r) → (l, r) ∈ catalog.
Proof.
  rewrite match_station_rename. unfold matched.
  destruct (best_match _ _ _ _ _) as [e|[s i]]; [done|]. cbn [mbind py_bind].
  destruct (loc catalog i) as [e|r'] eqn:El; [done|]. cbn [mbind py_bind].
  intros [= <- <-]. by apply loc_elem_of.
Qed.

Lemma coordtable_in_range (rows : list (list string)) (catalog : frame station) :
  coordtable rows = Return catalog → Forall (λ ls, in_range ls.2) catalog.
Proof.
  rewrite coordtable_unfold. destruct (omap six_cells rows) as [|hdr data]; [done|].
  by intros (H & _)%convert_rows_return.
Qed.

(** X27: with the catalog [coordtable] returns, every row of the frame of
    [table] carries the [sid] and the point of a station of the catalog,
    and the longitude and the latitude of the point are between 0 and
    100.65. *)
Theorem table_on_catalog (rows : list (list string)) (catalog : frame station)
    (ms : list measurement) (out : list (option string * observation)) :
  coordtable rows = Return catalog →
  table catalog ms = Return out →
  Forall2 (λ m o, ∃ l s,
      (l, s) ∈ catalog
      ∧ o = (sid s, {| coords := (Q2R (lon s), Q2R (lat s)); cell := readings m |})
      ∧ (0 <= lon s <= decdeg_max)%Q ∧ (0 <= lat s <= decdeg_max)%Q)
    ms out.
Proof.
  intros Hcat%coordtable_in_range Hout.
  unfold table in Hout. apply mapM_Forall2 in Hout.
  eapply Forall2_impl; [exact Hout|]. intros m o (l & s & Hm & ->)%table_row.
  apply match_station_elem_of in Hm. exists l, s. split; [done|]. split; [done|].
  apply (proj1 (Forall_forall _ _) Hcat) in Hm. destruct Hm as [H1 H2].
  by split.
Qed.

Lemma table_on_catalog_witness :
  Forall2 (λ m o, ∃ l s,
      (l, s) ∈ example_frame
      ∧ o = (sid s, {| coords := (Q2R (lon s), Q2R (lat s)); cell := readings m |})
      ∧ (0 <= lon s <= decdeg_max)%Q ∧ (0 <= lat s <= decdeg_max)%Q)
    [example_measurement]
    [(Some "235"%string,
      {| coords := (Q2R (287 # 60), Q2R (3175 # 60));
         cell := readings example_measurement |})].
Proof.
  apply (table_on_catalog example_catalog example_frame).
  - reflexivity.
  - reflexivity.
Defined.

(** X28: one station of the catalog without a name (its name cell on the
    page empty) makes [table] raise as soon as there is a measurement row,
    whatever the names of the measurement rows: [TypeError], or
    [AttributeError] when the first measurement row has no name and the
    first station of the catalog has none either. *)
Theorem table_null_name (rows : list (list string)) (catalog : frame station)
    (ms : list measurement) :
  coordtable rows = Return catalog →
  Exists (λ ls, name ls.2 = None) catalog →
  ms ≠ [] →
  ∃ e, table catalog ms = Raise e
       ∧ (e = TypeError ∨ e = AttributeError)
       ∧ (e = AttributeError
          ↔ ∃ m ms' l r rest, ms = m :: ms' ∧ station_name m = None
              ∧ catalog = (l, r) :: rest ∧ name r = None).
Proof.
  intros Hcat Hex Hne. destruct ms as [|m ms]; [done|].
  assert (∀ e, match_station catalog (station_name m) = Raise e →
               table catalog (m :: ms) = Raise e) as Htable.
  { intros e He. unfold table. apply mapM_Raise. exists [], m, ms.
    split; [done|]. split; [constructor|]. by apply table_row_Raise. }
  destruct (scan_null catalog (rename (station_name m))
              (coordtable_index _ _ Hcat) catalog 0%Q (-1)%Z ltac:(done))
    as (Hnone & Hraise & _).
  rewrite rename_None in Hnone, Hraise.
  destruct (station_name m) as [n|] eqn:En.
  - exists TypeError. split.
    + apply Htable. rewrite match_station_rename. unfold matched.
      by rewrite Hraise.
    + split; [by left|]. split; [done|].
      intros (m' & ms' & l & r & rest & [= <- <-] & Hm & _). congruence.
  - destruct catalog as [|[l r] rest]; [by apply Exists_nil in Hex|].
    exists (if name r is None then AttributeError else TypeError). split.
    + apply Htable. rewrite match_station_rename. unfold matched.
      by rewrite (Hnone eq_refl l r rest eq_refl).
    + destruct (name r) as [nr|] eqn:Er.
      * split; [by left|]. split; [done|].
        intros (m' & ms' & l' & r' & rest' & _ & _ & [= <- <- <-] & Hr).
        congruence.
      * split; [by right|]. split; [|done]. intros _.
        by exists m, ms, l, r, rest.
Qed.

Lemma table_null_name_witness :
  ∃ e, table example_unnamed_frame [example_measurement] = Raise e
       ∧ (e = TypeError ∨ e = AttributeError)
       ∧ (e = AttributeError
          ↔ ∃ m ms' l r rest, [example_measurement] = m :: ms'
              ∧ station_name m = None
              ∧ example_unnamed_frame = (l, r) :: rest ∧ name r = None).
Proof.
  apply (table_null_name example_unnamed example_unnamed_frame [example_measurement]).
  - reflexivity.
  - left. reflexivity.
  - discriminate.
Defined.
